(** * news-notify: the card bot's text masking, image resolution, title
    layout and deduplication store, embedded from [bot.v3.py].

    Python strings are lists of Unicode code points ([N]).  What the
    program obtains from its environment (the rendered page, the network,
    the image decoder, the font metric, the JSON codec, the Unicode
    tables) enters the definitions as a parameter. *)

From Stdlib Require Import List ZArith NArith Bool Lia String Ascii Sorted Permutation.
From stdpp Require Import base list gmap.
Import ListNotations.

Local Open Scope N_scope.

(* ================================================================== *)
(** ** Text: Python [str] as code points *)
(* ================================================================== *)

Module Text.

Abbreviation str := (list N).

(** An ASCII literal as a [str]. *)
Definition u (s : string) : str := map N_of_ascii (list_ascii_of_string s).

Definition is_ascii_upper (c : N) : bool := (65 <=? c) && (c <=? 90).
Definition is_ascii_lower (c : N) : bool := (97 <=? c) && (c <=? 122).
Definition is_ascii_digit (c : N) : bool := (48 <=? c) && (c <=? 57).

Definition ascii_lower (c : N) : N := if is_ascii_upper c then c + 32 else c.

(** [str.isspace] for one code point: the characters [str.split()] and
    [str.strip()] treat as whitespace. *)
Definition is_space (c : N) : bool :=
  ((9 <=? c) && (c <=? 13)) || ((28 <=? c) && (c <=? 32))
  || (c =? 133) || (c =? 160) || (c =? 5760)
  || ((8192 <=? c) && (c <=? 8202))
  || (c =? 8232) || (c =? 8233) || (c =? 8239) || (c =? 8287) || (c =? 12288).

(** [s.split()]: the maximal runs of non-whitespace characters.  [cur]
    holds the run being read, last character first. *)
Fixpoint split_from (cur : str) (s : str) : list str :=
  match s with
  | [] => match cur with [] => [] | _ => [rev cur] end
  | c :: s' =>
      if is_space c
      then match cur with
           | [] => split_from [] s'
           | _ => rev cur :: split_from [] s'
           end
      else split_from (c :: cur) s'
  end.

Definition split (s : str) : list str := split_from [] s.

Fixpoint lstrip (s : str) : str :=
  match s with
  | c :: s' => if is_space c then lstrip s' else s
  | [] => []
  end.

Definition strip (s : str) : str := rev (lstrip (rev (lstrip s))).

(** [" ".join(l)]. *)
Fixpoint join_space (l : list str) : str :=
  match l with
  | [] => []
  | [w] => w
  | w :: l' => w ++ 32 :: join_space l'
  end.

Fixpoint str_eqb (a b : str) : bool :=
  match a, b with
  | [], [] => true
  | x :: a', y :: b' => (x =? y) && str_eqb a' b'
  | _, _ => false
  end.

Fixpoint starts_with (k s : str) : bool :=
  match k, s with
  | [], _ => true
  | a :: k', b :: s' => (a =? b) && starts_with k' s'
  | _ :: _, [] => false
  end.

(** [k in s] for strings: [k] occurs as a substring of [s]. *)
Fixpoint contains (k s : str) : bool :=
  starts_with k s || match s with [] => false | _ :: s' => contains k s' end.

End Text.

Import Text.

(* ================================================================== *)
(** ** Text Sanitizer ([sanitize_text]) *)
(* ================================================================== *)

Module Sanitizer.

Section Regex.

(** The Unicode alphanumeric table of the runtime, consulted above ASCII. *)
Variable uni_alnum : N -> bool.

(** The four letters outside ASCII that [re.IGNORECASE] relates to an
    ASCII letter: U+0130, U+0131 (i), U+017F (s), U+212A (k). *)
Definition is_fold_extra (c : N) : bool :=
  (c =? 304) || (c =? 305) || (c =? 383) || (c =? 8490).

(** [\w] on a [str] pattern. *)
Definition is_word (c : N) : bool :=
  if c <? 128
  then is_ascii_upper c || is_ascii_lower c || is_ascii_digit c || (c =? 95)
  else is_fold_extra c || uni_alnum c.

(** A literal [p] of the pattern (a lower-case ASCII letter) against the
    subject character [c] under [re.IGNORECASE]. *)
Definition ci_match (p c : N) : bool :=
  ((c <? 128) && (ascii_lower c =? p))
  || ((p =? 105) && ((c =? 304) || (c =? 305)))
  || ((p =? 115) && (c =? 383))
  || ((p =? 107) && (c =? 8490)).

Definition head_is_word (s : str) : bool :=
  match s with c :: _ => is_word c | [] => false end.

(** [\b] between a character of wordness [prev] and the head of [s]. *)
Definition at_word_boundary (prev : bool) (s : str) : bool :=
  xorb prev (head_is_word s).

(** The literal part of the pattern against a prefix of [s]; yields the
    wordness of the last character read and the rest of the subject. *)
Fixpoint match_literal (pat : str) (prev : bool) (s : str) : option (bool * str) :=
  match pat with
  | [] => Some (prev, s)
  | p :: pat' =>
      match s with
      | c :: s' => if ci_match p c then match_literal pat' (is_word c) s' else None
      | [] => None
      end
  end.

(** [\b pat \b] matches at the head of [s]. *)
Definition match_here (pat : str) (prev : bool) (s : str) : bool :=
  at_word_boundary prev s &&
  match match_literal pat prev s with
  | Some (prev', rest) => at_word_boundary prev' rest
  | None => false
  end.

(** [re.sub] scanning left to right; after a match the scan resumes
    behind it ([skip] counts the characters of the match still to pass). *)
Fixpoint sub_scan (pat repl : str) (prev : bool) (skip : nat) (s : str) : str :=
  match s with
  | [] => []
  | c :: s' =>
      match skip with
      | S k => sub_scan pat repl (is_word c) k s'
      | O =>
          if match_here pat prev s
          then repl ++ sub_scan pat repl (is_word c) (length pat - 1) s'
          else c :: sub_scan pat repl (is_word c) 0 s'
      end
  end.

(** [re.sub(r"\bpat\b", repl, s, flags=re.IGNORECASE)]. *)
Definition re_sub (pat repl s : str) : str := sub_scan pat repl false 0 s.

(** [re.search] of the same pattern: does it match anywhere in [s]? *)
Fixpoint has_match (pat : str) (prev : bool) (s : str) : bool :=
  match s with
  | [] => false
  | c :: s' => match_here pat prev s || has_match pat (is_word c) s'
  end.

Definition replacements : list (str * str) :=
  [ (u "kill", u "Ki*ll");
    (u "kills", u "Ki*lls");
    (u "killed", u "Kil*led");
    (u "murder", u "Mu*rder");
    (u "murders", u "Mu*rders");
    (u "murdered", u "Mur*dered");
    (u "assassinate", u "As*sa*ssinate");
    (u "assassinates", u "As*sa*ssinates");
    (u "assassinated", u "As*sa*ssinated");
    (u "stab", u "St*ab");
    (u "stabs", u "St*abs");
    (u "stabbed", u "St*abbed");
    (u "slaughter", u "Sl*aughter");
    (u "slaughters", u "Sl*aughters");
    (u "slaughtered", u "Sl*aughtered");
    (u "rape", u "Ra*pe");
    (u "rapes", u "Ra*pes");
    (u "raped", u "Ra*ped");
    (u "gaza", u "Ga*za");
    (u "israel", u "Isr*ael");
    (u "palestine", u "Pa*le*stine") ].

(** The loop over the table: each rule rewrites the result of the
    previous one. *)
Definition apply_rules (rules : list (str * str)) (text : str) : str :=
  fold_left (fun sanitized rule => re_sub (fst rule) (snd rule) sanitized) rules text.

Definition sanitize_text (text : str) : str :=
  match text with
  | [] => text
  | _ => apply_rules replacements text
  end.

End Regex.

End Sanitizer.

(* ================================================================== *)
(** ** JSON values, as [json.loads] returns them *)
(* ================================================================== *)

Module Json.

Local Set Warnings "-register-all".

(** Numbers are the integers; [JObj] lists the items of the [dict]. *)
Inductive json : Type :=
| JNull
| JBool (b : bool)
| JNum (n : Z)
| JStr (s : str)
| JArr (items : list json)
| JObj (fields : list (str * json)).

(** Python truth value. *)
Definition truthy (v : json) : bool :=
  match v with
  | JNull => false
  | JBool b => b
  | JNum n => negb (n =? 0)%Z
  | JStr s => match s with [] => false | _ => true end
  | JArr items => match items with [] => false | _ => true end
  | JObj fields => match fields with [] => false | _ => true end
  end.

(** [d.get(k)]. *)
Fixpoint obj_get (fields : list (str * json)) (k : str) : option json :=
  match fields with
  | [] => None
  | (k', v) :: fields' => if str_eqb k k' then Some v else obj_get fields' k
  end.

End Json.

Import Json.

(* ================================================================== *)
(** ** Image Validator and Image Candidate Resolver
       ([fetch_article_image]) *)
(* ================================================================== *)

Module Resolver.

Abbreviation bytes := (list Byte.byte).

Definition bytes_nil : bytes := [].

(** A tag as BeautifulSoup presents it: its name, its string attributes,
    its [class] list (empty when absent) and its text. *)
Record tag : Type := mkTag {
  tag_name : str;
  tag_attrs : list (str * str);
  tag_classes : list str;
  tag_text : str
}.

(** A tag of the parsed page with its ancestors, the parent first. *)
Record node : Type := mkNode {
  node_tag : tag;
  node_ancestors : list tag
}.

(** The parsed page: its tags in document order. *)
Abbreviation soup := (list node).

(** [tag.get(k)]. *)
Fixpoint get (attrs : list (str * str)) (k : str) : option str :=
  match attrs with
  | [] => None
  | (k', v) :: attrs' => if str_eqb k k' then Some v else get attrs' k
  end.

(** [k in tag.attrs.keys()]. *)
Definition has_attr (attrs : list (str * str)) (k : str) : bool :=
  match get attrs k with Some _ => true | None => false end.

Definition parent (n : node) : option tag := head (node_ancestors n).

(** [soup.find(name, attrs={k: v})]. *)
Definition find_tag (page : soup) (name k v : str) : option node :=
  List.find (fun n => str_eqb (tag_name (node_tag n)) name
                      && match get (tag_attrs (node_tag n)) k with
                         | Some v' => str_eqb v' v
                         | None => false
                         end) page.

(** [soup.find_all(name)]. *)
Definition find_all (page : soup) (name : str) : list node :=
  List.filter (fun n => str_eqb (tag_name (node_tag n)) name) page.

(** Truth value of an optional string. *)
Definition nonempty (o : option str) : bool :=
  match o with Some (_ :: _) => true | _ => false end.

(** [a or b]. *)
Definition or_else (a b : option str) : option str := if nonempty a then a else b.

(** What [requests.get] gives: an exception, or a status and a body. *)
Inductive fetched : Type :=
| FetchError
| Fetched (status_code : Z) (content : bytes).

Inductive stage : Type := MetaStage | JsonLdStage | InlineStage.

(** What the resolver does to its environment, in order. *)
Inductive event : Type :=
| Rendered (url : str)
| Entered (s : stage)
| Validated (url : str).

Inductive outcome : Type :=
| Found (img : bytes)
| NotFound
| Raised.

Inductive src_result : Type :=
| Skip
| SrcRaised
| Src (s : str).

(** [s.split(",")[0]]. *)
Fixpoint before_comma (s : str) : str :=
  match s with
  | [] => []
  | c :: s' => if c =? 44 then [] else c :: before_comma s'
  end.

(** The first lines of the loop over [<img>] tags: the string the
    candidate is made from. *)
Definition candidate_src (img : tag) : src_result :=
  let attrs := tag_attrs img in
  let src := or_else (get attrs (u "src"))
               (or_else (get attrs (u "data-src"))
                  (or_else (get attrs (u "data-original")) (get attrs (u "srcset")))) in
  match src with
  | Some (c :: src') =>
      if has_attr attrs (u "srcset")
      then match get attrs (u "srcset") with
           | Some (d :: srcset') =>
               match split (before_comma (d :: srcset')) with
               | first :: _ => Src first
               | [] => SrcRaised
               end
           | _ => Src (c :: src')
           end
      else Src (c :: src')
  | _ => Skip
  end.

Definition banned_keywords : list str :=
  [u "logo"; u "favicon"; u "sprite"; u "placeholder"; u "default"; u "avatar"].

Definition content_keywords : list str :=
  [u "article"; u "entry"; u "content"; u "post"; u "news"].

Definition prominence_keywords : list str :=
  [u "featured"; u "main"; u "hero"; u "lead"].

(** A candidate of the inline stage: [(score, url_abs, img)]. *)
Record candidate : Type := mkCandidate {
  score : nat;
  url_abs : str;
  img_tag : node
}.

(** [list.sort(key=lambda t: t[0], reverse=True)]: stable, by falling
    score. *)
Fixpoint insert_desc (c : candidate) (l : list candidate) : list candidate :=
  match l with
  | [] => [c]
  | d :: l' => if (score d <=? score c)%nat then c :: l else d :: insert_desc c l'
  end.

Definition sort_desc (l : list candidate) : list candidate :=
  fold_right insert_desc [] l.

Section Resolve.

(** [str.lower]. *)
Variable str_lower : str -> str.
(** [urllib.parse.urljoin]; [None] when it raises. *)
Variable urljoin : str -> str -> option str.
(** [requests.get(url, timeout=15, stream=True)]. *)
Variable http_get : str -> fetched.
(** [Image.open(...).size]; [None] when the bytes are no image. *)
Variable image_size : bytes -> option (Z * Z).
(** The browser session: [driver.get(url)], the wait for [body] and the
    parse of [driver.page_source]; [None] when any of them raises. *)
Variable render : str -> option soup.
(** [json.loads]; [None] when it raises. *)
Variable json_loads : str -> option json.

Definition make_absolute (base_url : str) (maybe_url : option str) : option str :=
  match maybe_url with
  | Some (c :: m) =>
      match urljoin base_url (c :: m) with
      | Some joined => Some joined
      | None => Some (c :: m)
      end
  | _ => None
  end.

Definition is_probably_logo (url_str : str) : bool :=
  match url_str with
  | [] => true
  | _ => existsb (fun k => contains k (str_lower url_str)) banned_keywords
  end.

Definition download_and_validate_image (img_url : str) : option bytes :=
  match http_get img_url with
  | FetchError => None
  | Fetched status_code content =>
      if negb (status_code =? 200)%Z then None
      else match image_size content with
           | Some (width_px, height_px) =>
               if (width_px <? 400)%Z || (height_px <? 250)%Z then None
               else Some content
           | None => None
           end
  end.

(** [url_abs and not is_probably_logo(url_abs)]. *)
Definition usable (url : option str) : option str :=
  match url with
  | Some (c :: m) => if is_probably_logo (c :: m) then None else Some (c :: m)
  | _ => None
  end.

(** Validate the URLs in order and stop at the first accepted one. *)
Fixpoint try_each (urls : list str) : option bytes * list event :=
  match urls with
  | [] => (None, [])
  | url :: urls' =>
      match download_and_validate_image url with
      | Some img => (Some img, [Validated url])
      | None => let '(r, t) := try_each urls' in (r, Validated url :: t)
      end
  end.

(** *** 1) meta tags *)

Definition meta_props : list (str * str) :=
  [ (u "property", u "og:image");
    (u "name", u "twitter:image");
    (u "property", u "twitter:image");
    (u "itemprop", u "image") ].

Definition meta_candidate (base_url : str) (page : soup) (prop : str * str) : option str :=
  match find_tag page (u "meta") (fst prop) (snd prop) with
  | Some el =>
      let content := get (tag_attrs (node_tag el)) (u "content") in
      if nonempty content then usable (make_absolute base_url content) else None
  | None => None
  end.

Definition meta_candidates (article_url : str) (page : soup) : list str :=
  omap (meta_candidate article_url page) meta_props.

Definition meta_stage (article_url : str) (page : soup) : option bytes * list event :=
  try_each (meta_candidates article_url page).

(** *** 2) JSON-LD *)

Inductive ld_candidate : Type :=
| LdUrl (url : str)
| LdRaise.

Definition ld_of_object (article_url : str) (obj : json) : list ld_candidate :=
  match obj with
  | JObj fields =>
      let url_candidate :=
        match obj_get fields (u "image") with
        | Some (JStr s) => Some (JStr s)
        | Some (JArr (first :: _)) => Some first
        | Some (JObj image) => obj_get image (u "url")
        | _ => None
        end in
      match url_candidate with
      | Some (JStr s) =>
          match usable (make_absolute article_url (Some s)) with
          | Some url => [LdUrl url]
          | None => []
          end
      | Some v => if truthy v then [LdRaise] else []
      | None => []
      end
  | _ => []
  end.

Definition ld_of_script (article_url : str) (script : node) : list ld_candidate :=
  match json_loads (tag_text (node_tag script)) with
  | Some (JObj fields) => ld_of_object article_url (JObj fields)
  | Some (JArr items) => flat_map (ld_of_object article_url) items
  | _ => []
  end.

Definition is_ld_script (n : node) : bool :=
  str_eqb (tag_name (node_tag n)) (u "script")
  && match get (tag_attrs (node_tag n)) (u "type") with
     | Some t => str_eqb t (u "application/ld+json")
     | None => false
     end.

Fixpoint try_ld (cs : list ld_candidate) : outcome * list event :=
  match cs with
  | [] => (NotFound, [])
  | LdRaise :: _ => (Raised, [])
  | LdUrl url :: cs' =>
      match download_and_validate_image url with
      | Some img => (Found img, [Validated url])
      | None => let '(r, t) := try_ld cs' in (r, Validated url :: t)
      end
  end.

Definition jsonld_stage (article_url : str) (page : soup) : outcome * list event :=
  try_ld (flat_map (ld_of_script article_url) (List.filter is_ld_script page)).

(** *** 3) in-article images *)

Definition parent_classes (img : node) : str :=
  match parent img with
  | Some p => join_space (tag_classes p)
  | None => []
  end.

Definition in_content_area (img : node) : bool :=
  existsb (fun k => contains k (str_lower (parent_classes img))) content_keywords.

Definition is_prominent (img : node) : bool :=
  existsb (fun k => existsb (str_eqb k) (tag_classes (node_tag img))) prominence_keywords.

Definition score_of (img : node) : nat :=
  ((if in_content_area img then 2 else 0) + (if is_prominent img then 3 else 0))%nat.

(** The loop that fills [img_candidates]; [None] when it raises. *)
Fixpoint collect (article_url : str) (imgs : list node) : option (list candidate) :=
  match imgs with
  | [] => Some []
  | img :: imgs' =>
      match candidate_src (node_tag img) with
      | Skip => collect article_url imgs'
      | SrcRaised => None
      | Src src =>
          match usable (make_absolute article_url (Some src)) with
          | None => collect article_url imgs'
          | Some url =>
              match collect article_url imgs' with
              | Some cs => Some (mkCandidate (score_of img) url img :: cs)
              | None => None
              end
          end
      end
  end.

(** The one hop behind a linked image. *)
Definition follow_parent (article_url : str) (img : node) : option bytes * list event :=
  match parent img with
  | Some p =>
      let link := get (tag_attrs p) (u "href") in
      if str_eqb (tag_name p) (u "a") && nonempty link
      then match make_absolute article_url link with
           | Some (c :: h) =>
               let href := c :: h in
               if str_eqb href article_url then (None, [])
               else match render href with
                    | None => (None, [Rendered href])
                    | Some inner_soup =>
                        let og := meta_candidate href inner_soup (u "property", u "og:image") in
                        let first_img :=
                          match List.find (fun n => str_eqb (tag_name (node_tag n)) (u "img")) inner_soup with
                          | Some first => usable (make_absolute href (get (tag_attrs (node_tag first)) (u "src")))
                          | None => None
                          end in
                        let '(r, t) := try_each (option_list og ++ option_list first_img) in
                        (r, Rendered href :: t)
                    end
           | _ => (None, [])
           end
      else (None, [])
  | None => (None, [])
  end.

Fixpoint try_inline (article_url : str) (cs : list candidate) : option bytes * list event :=
  match cs with
  | [] => (None, [])
  | c :: cs' =>
      match download_and_validate_image (url_abs c) with
      | Some img => (Some img, [Validated (url_abs c)])
      | None =>
          let '(r, t) := follow_parent article_url (img_tag c) in
          match r with
          | Some img2 => (Some img2, Validated (url_abs c) :: t)
          | None =>
              let '(r', t') := try_inline article_url cs' in
              (r', Validated (url_abs c) :: t ++ t')
          end
      end
  end.

Definition inline_stage (article_url : str) (page : soup) : outcome * list event :=
  match collect article_url (find_all page (u "img")) with
  | None => (Raised, [])
  | Some img_candidates =>
      let '(r, t) := try_inline article_url (firstn 8 (sort_desc img_candidates)) in
      (match r with Some img => Found img | None => NotFound end, t)
  end.

(** The result, and what was rendered and downloaded on the way. *)
Definition fetch_article_image (article_url : str) : option bytes * list event :=
  match render article_url with
  | None => (None, [Rendered article_url])
  | Some page =>
      let '(r1, t1) := meta_stage article_url page in
      let t1 := Rendered article_url :: Entered MetaStage :: t1 in
      match r1 with
      | Some img => (Some img, t1)
      | None =>
          let '(r2, t2) := jsonld_stage article_url page in
          let t2 := t1 ++ Entered JsonLdStage :: t2 in
          match r2 with
          | Found img => (Some img, t2)
          | Raised => (None, t2)
          | NotFound =>
              let '(r3, t3) := inline_stage article_url page in
              let t3 := t2 ++ Entered InlineStage :: t3 in
              match r3 with
              | Found img => (Some img, t3)
              | _ => (None, t3)
              end
          end
      end
  end.

End Resolve.

End Resolver.

(* ================================================================== *)
(** ** Card Compositor: the title layout of
       [create_professional_news_card] *)
(* ================================================================== *)

Module Compositor.

(** The marker literal the source appends: U+201A U+00C4 U+00B6. *)
Definition ellipsis : str := [8218; 196; 182].

Definition max_lines : nat := 3.

Record wrap_state : Type := mkWrap {
  lines : list str;
  current_line : str;
  word_index : nat
}.

Section Wrap.

(** [bbox[2] - bbox[0]] of [draw.textbbox((0, 0), s, font=title_font)]. *)
Variable text_width : str -> Z.
Variable max_text_width : Z.

Definition fits (s : str) : bool := (text_width s <=? max_text_width)%Z.

(** [while hard and width(hard) > max_text_width: hard = hard[:-1]];
    [n] bounds the characters still to drop. *)
Fixpoint trim_to_fit (n : nat) (hard : str) : str :=
  match hard with
  | [] => hard
  | _ :: _ =>
      if fits hard then hard
      else match n with
           | O => hard
           | S n' => trim_to_fit n' (removelast hard)
           end
  end.

Definition hard_cut (word : str) : str :=
  match trim_to_fit (length word) word with
  | [] => firstn 1 word
  | hard => hard
  end.

Definition loop_cond (words : list str) (st : wrap_state) : bool :=
  (word_index st <? length words)%nat && (length (lines st) <? max_lines)%nat.

Definition loop_body (words : list str) (st : wrap_state) : wrap_state :=
  let word := nth (word_index st) words [] in
  let test_line := strip (current_line st ++ 32 :: word) in
  if fits test_line
  then mkWrap (lines st) test_line (S (word_index st))
  else match current_line st with
       | _ :: _ => mkWrap (lines st ++ [current_line st]) [] (word_index st)
       | [] => mkWrap (lines st ++ [hard_cut word]) [] (S (word_index st))
       end.

Fixpoint while_loop (fuel : nat) (words : list str) (st : wrap_state) : wrap_state :=
  match fuel with
  | O => st
  | S fuel' =>
      if loop_cond words st then while_loop fuel' words (loop_body words st) else st
  end.

(** The [while True] that shortens the last line until the marker fits;
    [n] bounds the characters still to drop. *)
Fixpoint ellipsize (n : nat) (last : str) : str :=
  if fits (last ++ ellipsis) || (length last =? 0)%nat
  then match last with [] => ellipsis | _ => last ++ ellipsis end
  else match n with
       | O => last ++ ellipsis
       | S n' => ellipsize n' (removelast last)
       end.

(** The state when the wrapping loop is left and the pending line has
    been appended. *)
Definition wrap_words (words : list str) : wrap_state :=
  let st := while_loop (length words + max_lines) words (mkWrap [] [] 0) in
  match current_line st with
  | _ :: _ =>
      if (length (lines st) <? max_lines)%nat
      then mkWrap (lines st ++ [current_line st]) (current_line st) (word_index st)
      else st
  | [] => st
  end.

Definition words_left (words : list str) : bool :=
  (word_index (wrap_words words) <? length words)%nat.

(** The lines that are drawn. *)
Definition layout_words (words : list str) : list str :=
  let ls := lines (wrap_words words) in
  if words_left words
  then match rev ls with
       | last :: before => rev before ++ [ellipsize (length last) last]
       | [] => ls
       end
  else ls.

Definition wrap_title (title : str) : list str := layout_words (split title).

End Wrap.

(** The title is masked before it is laid out. *)
Definition title_lines (uni_alnum : N -> bool) (text_width : str -> Z)
    (max_text_width : Z) (title : str) : list str :=
  wrap_title text_width max_text_width (Sanitizer.sanitize_text uni_alnum title).

End Compositor.

(* ================================================================== *)
(** ** Deduplication Store and Article Pipeline *)
(* ================================================================== *)

Module Store.

(** What a Python [set] built from a JSON document can hold.  [True] and
    [False] are the members [1] and [0]. *)
Inductive member : Type :=
| MStr (s : str)
| MInt (n : Z)
| MNone.

#[global] Instance member_eq_dec : EqDecision member.
Proof. solve_decision. Defined.

#[global] Instance member_countable : Countable member.
Proof.
  refine (inj_countable'
    (fun m => match m with MStr s => inl s | MInt n => inr (inl n) | MNone => inr (inr ()) end)
    (fun x => match x with inl s => MStr s | inr (inl n) => MInt n | inr (inr _) => MNone end) _).
  intros []; reflexivity.
Defined.

(** The key of a member of a [set], or [None] for an unhashable value. *)
Definition hashable (v : json) : option member :=
  match v with
  | JStr s => Some (MStr s)
  | JNum n => Some (MInt n)
  | JBool b => Some (MInt (if b then 1 else 0))
  | JNull => Some MNone
  | JArr _ | JObj _ => None
  end.

(** [set(v)]; [None] is the [TypeError] of a value that cannot be iterated
    or of an unhashable member. *)
Definition set_of (v : json) : option (gset member) :=
  match v with
  | JArr items => list_to_set <$> mapM hashable items
  | JObj fields => Some (list_to_set (map (fun kv => MStr (fst kv)) fields))
  | JStr s => Some (list_to_set (map (fun c => MStr [c]) s))
  | JNull | JBool _ | JNum _ => None
  end.

Definition to_json (m : member) : json :=
  match m with
  | MStr s => JStr s
  | MInt n => JNum n
  | MNone => JNull
  end.

Inductive loaded : Type :=
| Loaded (posted_links : gset member)
| LoadRaised.

(** What [open(POSTED_LINKS_FILE, "r")] and [f.read()] meet on disk: no
    file ([FileNotFoundError]), a file that cannot be opened or decoded
    as text (any other exception, such as [PermissionError] or
    [UnicodeDecodeError]), or a file and its text. *)
Inductive disk : Type :=
| Absent
| Unreadable
| Holds (text : str).

(** What [json.loads] does with a text: it returns a value, it raises
    [JSONDecodeError], or it raises another exception ([RecursionError]
    on deep nesting, [ValueError] on an integer of too many digits). *)
Inductive parsed : Type :=
| Parsed (v : json)
| DecodeError
| ParseRaised.

(** How the write of [save_posted_links] ends: the file holds the
    document, or an exception was logged and the disk is left as
    [leftover]. *)
Inductive written : Type :=
| WriteDone
| WriteFailed (leftover : disk).

Section Files.

(** [json.loads]. *)
Variable json_loads : str -> parsed.
(** The text [json.dump(obj, f, indent=2)] writes. *)
Variable json_dumps : json -> str.
(** [list(posted_links)]: the order in which the set is iterated. *)
Variable set_order : gset member -> list member.

(** The handler catches [FileNotFoundError] and [JSONDecodeError] and
    nothing else. *)
Definition load_posted_links (file : disk) : loaded :=
  match file with
  | Absent => Loaded ∅
  | Unreadable => LoadRaised
  | Holds text =>
      match strip text with
      | [] => Loaded ∅
      | content =>
          match json_loads content with
          | DecodeError => Loaded ∅
          | ParseRaised => LoadRaised
          | Parsed v =>
              match set_of v with
              | Some links => Loaded links
              | None => LoadRaised
              end
          end
      end
  end.

Definition save_posted_links (w : written) (posted_links : gset member)
    (file : disk) : disk :=
  match w with
  | WriteDone => Holds (json_dumps (JArr (map to_json (set_order posted_links))))
  | WriteFailed leftover => leftover
  end.

End Files.

(** *** [process_and_send_news] *)

Record article : Type := mkArticle {
  title : str;
  link : str
}.

(** What [requests.post] to [sendPhoto] gives: an exception, or a status
    and the truth value of the reply's [ok] field. *)
Inductive reply : Type :=
| PostRaised
| Replied (status_code : Z) (ok : bool).

Definition send_telegram_photo_sync (r : reply) : bool :=
  match r with
  | Replied status_code ok => (status_code =? 200)%Z && ok
  | PostRaised => false
  end.

(** What the environment answers while one article is processed: the
    card (or [None]), the reply to [sendPhoto], the end of the write. *)
Record attempt : Type := mkAttempt {
  card : option Resolver.bytes;
  photo_reply : reply;
  save_result : written
}.

(** The store, the file, and the links whose photo was delivered
    (the newest first). *)
Record state : Type := mkState {
  posted_links : gset member;
  file : disk;
  delivered : list str
}.

Section Pipeline.

Variable json_dumps : json -> str.
Variable set_order : gset member -> list member.

Definition process_article (st : state) (a : article * attempt) : state :=
  let '(art, env) := a in
  if bool_decide (MStr (link art) ∈ posted_links st) then st
  else match card env with
       | Some image_data =>
           if send_telegram_photo_sync (photo_reply env)
           then let posted := {[ MStr (link art) ]} ∪ posted_links st in
                mkState posted
                  (save_posted_links json_dumps set_order (save_result env) posted (file st))
                  (link art :: delivered st)
           else st
       | None => st
       end.

Definition process_and_send_news (news_articles : list (article * attempt))
    (st : state) : state :=
  fold_left process_article news_articles st.

End Pipeline.

End Store.

(* ================================================================== *)
(** ** News scraper ([get_latest_news]) *)
(* ================================================================== *)

Module Scraper.

Local Set Warnings "-register-all".

(** The parsed listing page as BeautifulSoup presents it: a tag with its
    name, its string attributes, its [class] list and its children, or a
    string of text. *)
Inductive element : Type :=
| Tag (name : str) (attrs : list (str * str)) (classes : list str)
    (children : list element)
| NavigableString (text : str).

(** [tag.descendants]: everything below the tag, in document order. *)
Fixpoint descendants (e : element) : list element :=
  match e with
  | Tag _ _ _ children => flat_map (fun child => child :: descendants child) children
  | NavigableString _ => []
  end.

Definition is_tag (name : str) (e : element) : bool :=
  match e with
  | Tag name' _ _ _ => str_eqb name' name
  | NavigableString _ => false
  end.

(** The filter [class_=c]: one of the tag's classes is [c]. *)
Definition has_class (c : option str) (e : element) : bool :=
  match c, e with
  | None, _ => true
  | Some c', Tag _ _ classes _ => existsb (str_eqb c') classes
  | Some _, NavigableString _ => false
  end.

(** [tag.find(name, class_=c)]. *)
Definition find (e : element) (name : str) (class_ : option str) : option element :=
  List.find (fun d => is_tag name d && has_class class_ d) (descendants e).

(** [tag.find_all(name, class_=c)]. *)
Definition find_all (e : element) (name : str) (class_ : option str) : list element :=
  List.filter (fun d => is_tag name d && has_class class_ d) (descendants e).

(** The strings below the tag, in document order. *)
Definition strings (e : element) : list str :=
  omap (fun d => match d with NavigableString text => Some text | Tag _ _ _ _ => None end)
    (descendants e).

(** [tag.get_text(strip=True)]: every string stripped, the empty ones
    dropped, the rest joined without a separator. *)
Definition get_text_strip (e : element) : str :=
  concat (List.filter (fun s => negb (str_eqb s [])) (map strip (strings e))).

Definition site : str := u "https://www.bangladeshguardian.com".

(** The body of the loop over the article blocks: [None] is [continue],
    or an article whose title or link is empty. *)
Definition scrape_article (article : element) : option Store.article :=
  match find article (u "a") None with
  | Some (Tag _ attrs _ _) =>
      match Resolver.get attrs (u "href") with
      | Some href =>
          let link := if starts_with (u "/") href then site ++ href else href in
          match find article (u "h3") (Some (u "Title")) with
          | Some title_elem =>
              let title := get_text_strip title_elem in
              match title, link with
              | _ :: _, _ :: _ => Some (Store.mkArticle title link)
              | _, _ => None
              end
          | None => None
          end
      | None => None
      end
  | _ => None
  end.

(** [page] is the parse of the rendered listing, [None] when the browser
    session, the wait for the first block or the parse raises. *)
Definition get_latest_news (page : option element) : list Store.article :=
  match page with
  | Some soup => omap scrape_article (find_all soup (u "div") (Some (u "LatestNews")))
  | None => []
  end.

End Scraper.

(* ================================================================== *)
(** ** Facts about strings *)
(* ================================================================== *)

Module TextFacts.

Lemma str_eqb_eq a b : str_eqb a b = true -> a = b.
Proof.
  revert b. induction a as [|x a IH]; intros [|y b] H; simpl in H; try discriminate;
    [reflexivity|].
  apply andb_true_iff in H as [Hx H]. apply N.eqb_eq in Hx. f_equal; auto.
Qed.

Lemma str_eqb_refl a : str_eqb a a = true.
Proof. induction a as [|x a IH]; [reflexivity|]. simpl. now rewrite N.eqb_refl. Qed.

Lemma forallb_rev {A} (f : A -> bool) (l : list A) : forallb f (rev l) = forallb f l.
Proof.
  induction l as [|a l IH]; [reflexivity|].
  simpl. rewrite forallb_app, IH. simpl. rewrite andb_true_r. apply andb_comm.
Qed.

End TextFacts.

Import TextFacts.

(* ================================================================== *)
(** ** Facts about the sanitizer *)
(* ================================================================== *)

Module SanitizerFacts.

Import Sanitizer.

(** The pattern is a run of lower-case ASCII letters (every trigger is). *)
Definition letters (pat : str) : bool := forallb is_ascii_lower pat.

(** [w] is the trigger [pat] up to letter case, as the regex engine
    compares them. *)
Fixpoint ci_eq (pat w : str) : bool :=
  match pat, w with
  | [], [] => true
  | p :: pat', c :: w' => ci_match p c && ci_eq pat' w'
  | _, _ => false
  end.

(** The rule of the table whose trigger [w] is, if any. *)
Definition rule_for (rules : list (str * str)) (w : str) : option (str * str) :=
  List.find (fun rule => ci_eq (fst rule) w) rules.

(** What a whole token becomes: the replacement of its rule, or itself. *)
Definition mask (rules : list (str * str)) (w : str) : str :=
  match rule_for rules w with
  | Some rule => snd rule
  | None => w
  end.

Definition well_formed (rules : list (str * str)) : Prop :=
  Forall (fun rule => fst rule <> [] /\ letters (fst rule) = true) rules.

Section Facts.

Variable uni_alnum : N -> bool.

Abbreviation is_word := (is_word uni_alnum).
Abbreviation head_is_word := (head_is_word uni_alnum).
Abbreviation at_word_boundary := (at_word_boundary uni_alnum).
Abbreviation match_literal := (match_literal uni_alnum).
Abbreviation match_here := (match_here uni_alnum).
Abbreviation sub_scan := (sub_scan uni_alnum).
Abbreviation re_sub := (re_sub uni_alnum).
Abbreviation apply_rules := (apply_rules uni_alnum).
Abbreviation sanitize_text := (sanitize_text uni_alnum).

(** A maximal run of word characters. *)
Definition all_word (w : str) : bool := forallb is_word w.

Definition nonword_head (s : str) : bool := negb (head_is_word s).

Ltac bools :=
  repeat match goal with
    | H : _ && _ = true |- _ => apply andb_true_iff in H; destruct H
    | H : _ || _ = true |- _ => apply orb_true_iff in H; destruct H
    | H : (_ <=? _) = true |- _ => apply N.leb_le in H
    | H : (_ <? _) = true |- _ => apply N.ltb_lt in H
    | H : (_ =? _) = true |- _ => apply N.eqb_eq in H
    | H : (_ <=? _) = false |- _ => apply N.leb_gt in H
    | H : (_ <? _) = false |- _ => apply N.ltb_ge in H
    | H : (_ =? _) = false |- _ => apply N.eqb_neq in H
    end.

Lemma ci_match_is_word p c :
  is_ascii_lower p = true -> ci_match p c = true -> is_word c = true.
Proof.
  unfold is_ascii_lower, ci_match, Sanitizer.is_word, is_fold_extra, ascii_lower,
    is_ascii_upper, is_ascii_lower, is_ascii_digit.
  intros Hp Hm.
  destruct (c <? 128) eqn:Hc; bools; subst; simpl in *; try discriminate.
  - destruct ((65 <=? c) && (c <=? 90)) eqn:Hu; [reflexivity|].
    bools. subst.
    replace (97 <=? c) with true by (symmetry; apply N.leb_le; lia).
    replace (c <=? 122) with true by (symmetry; apply N.leb_le; lia).
    reflexivity.
  - reflexivity.
  - reflexivity.
  - reflexivity.
  - reflexivity.
Qed.

Lemma ci_match_fun p p' c :
  is_ascii_lower p = true -> is_ascii_lower p' = true ->
  ci_match p c = true -> ci_match p' c = true -> p = p'.
Proof.
  unfold is_ascii_lower, ci_match. intros Hp Hp' H H'.
  bools; subst; try lia; try reflexivity.
Qed.

Lemma ci_eq_length pat w : ci_eq pat w = true -> length w = length pat.
Proof.
  revert w. induction pat as [|p pat IH]; intros [|c w] H; simpl in *;
    try discriminate; [reflexivity|].
  bools. f_equal. now apply IH.
Qed.

Lemma ci_eq_all_word pat w :
  letters pat = true -> ci_eq pat w = true -> all_word w = true.
Proof.
  revert w. induction pat as [|p pat IH]; intros [|c w] Hl H; simpl in *;
    try discriminate; [reflexivity|].
  bools. rewrite (ci_match_is_word p c); auto. simpl. auto.
Qed.

Lemma ci_eq_fun pat pat' w :
  letters pat = true -> letters pat' = true ->
  ci_eq pat w = true -> ci_eq pat' w = true -> pat = pat'.
Proof.
  revert pat' w. induction pat as [|p pat IH]; intros [|p' pat'] [|c w] Hl Hl' H H';
    simpl in *; try discriminate; [reflexivity|].
  bools. f_equal; [eapply ci_match_fun; eauto | eapply IH; eauto].
Qed.

(** A word in any mixture of ASCII upper and lower case is its trigger. *)
Lemma ci_eq_ascii_case pat w :
  letters pat = true -> map ascii_lower w = pat -> ci_eq pat w = true.
Proof.
  revert pat. induction w as [|c w IH]; intros pat Hl <-; simpl in *; [reflexivity|].
  bools. rewrite IH by auto. rewrite andb_true_r.
  unfold ci_match.
  assert (Hc : (c <? 128) = true).
  { apply N.ltb_lt. unfold is_ascii_lower, ascii_lower, is_ascii_upper in *.
    destruct ((65 <=? c) && (c <=? 90)) eqn:Hu; bools; lia. }
  rewrite Hc, N.eqb_refl. reflexivity.
Qed.

(** *** The literal match *)

Definition after_literal (pat : str) (prev : bool) : bool :=
  match pat with [] => prev | _ => true end.

Lemma match_literal_some pat prev s q rest :
  letters pat = true ->
  match_literal pat prev s = Some (q, rest) ->
  exists w, s = w ++ rest /\ ci_eq pat w = true /\ q = after_literal pat prev.
Proof.
  revert prev s. induction pat as [|p pat IH]; intros prev s Hl H; simpl in *.
  - injection H as <- <-. exists []. auto.
  - destruct s as [|c s]; [discriminate|].
    destruct (ci_match p c) eqn:Hm; [|discriminate].
    apply andb_true_iff in Hl as [Hp Hl].
    destruct (IH _ _ Hl H) as (w & -> & Hw & ->).
    exists (c :: w). simpl. rewrite Hm, Hw. repeat split.
    destruct pat; simpl; [|reflexivity].
    eapply ci_match_is_word; eauto.
Qed.

Lemma match_literal_ci_eq pat prev w rest :
  letters pat = true -> ci_eq pat w = true ->
  match_literal pat prev (w ++ rest) = Some (after_literal pat prev, rest).
Proof.
  revert prev w. induction pat as [|p pat IH]; intros prev [|c w] Hl H;
    simpl in *; try discriminate; [reflexivity|].
  bools. rewrite H. rewrite IH by auto.
  destruct pat; simpl; [|reflexivity].
  now rewrite (ci_match_is_word p c).
Qed.

Definition match_end (pat : str) (prev : bool) (s : str) : bool :=
  match match_literal pat prev s with
  | Some (prev', rest) => at_word_boundary prev' rest
  | None => false
  end.

Lemma nonword_head_no_match p c :
  is_ascii_lower p = true -> is_word c = false -> ci_match p c = false.
Proof.
  intros Hp Hc. destruct (ci_match p c) eqn:Hm; [|reflexivity].
  rewrite (ci_match_is_word p c) in Hc; auto.
Qed.

(** What follows a token boundary does not change a match before it. *)
Lemma match_end_app pat prev a b :
  letters pat = true -> (a = [] -> prev = true) -> nonword_head b = true ->
  match_end pat prev (a ++ b) = match_end pat prev a.
Proof.
  unfold match_end, nonword_head.
  revert prev a. induction pat as [|p pat IH]; intros prev a Hl Ha Hb; simpl in *.
  - unfold Sanitizer.at_word_boundary. destruct a as [|c a]; simpl; [|reflexivity].
    rewrite Ha by reflexivity. apply negb_true_iff in Hb. now rewrite Hb.
  - bools. destruct a as [|c a]; simpl.
    + destruct b as [|d b]; [reflexivity|]. simpl in Hb. apply negb_true_iff in Hb.
      now rewrite (nonword_head_no_match p d).
    + destruct (ci_match p c) eqn:Hm; [|reflexivity].
      apply IH; auto. intros _. eapply ci_match_is_word; eauto.
Qed.

Lemma match_here_app pat prev c a b :
  letters pat = true -> nonword_head b = true ->
  match_here pat prev ((c :: a) ++ b) = match_here pat prev (c :: a).
Proof.
  intros Hl Hb. unfold Sanitizer.match_here.
  change (match match_literal pat prev ((c :: a) ++ b) with
          | Some (prev', rest) => at_word_boundary prev' rest | None => false end)
    with (match_end pat prev ((c :: a) ++ b)).
  rewrite match_end_app by (auto; discriminate). reflexivity.
Qed.

Lemma match_here_length pat prev s :
  match_here pat prev s = true -> (length pat <= length s)%nat.
Proof.
  unfold Sanitizer.match_here. intros H. bools. clear H.
  revert prev s H0. induction pat as [|p pat IH]; intros prev s H; simpl in *; [lia|].
  destruct s as [|c s]; [discriminate|].
  destruct (ci_match p c); [|discriminate].
  apply IH in H. simpl. lia.
Qed.

Lemma match_here_nonword pat prev c s :
  pat <> [] -> letters pat = true -> is_word c = false ->
  match_here pat prev (c :: s) = false.
Proof.
  intros Hne Hl Hc. unfold Sanitizer.match_here.
  destruct pat as [|p pat]; [congruence|]. simpl in *. bools.
  rewrite (nonword_head_no_match p c) by auto. apply andb_false_r.
Qed.

(** *** One pass of [re.sub] *)

Section Pass.

Variables pat repl : str.
Hypothesis pat_nonempty : pat <> [].
Hypothesis pat_letters : letters pat = true.

Lemma sub_scan_skip_all prev k s :
  (length s <= k)%nat -> sub_scan pat repl prev k s = [].
Proof.
  revert prev k. induction s as [|c s IH]; intros prev k Hk; [reflexivity|].
  simpl in *. destruct k as [|k]; [lia|]. apply IH. lia.
Qed.

Lemma sub_scan_nonword prev c s :
  is_word c = false ->
  sub_scan pat repl prev 0 (c :: s) = c :: sub_scan pat repl false 0 s.
Proof.
  intros Hc. simpl. rewrite match_here_nonword by auto. now rewrite Hc.
Qed.

Lemma sub_scan_nonword_head prev s :
  nonword_head s = true ->
  sub_scan pat repl prev 0 s = sub_scan pat repl false 0 s.
Proof.
  destruct s as [|c s]; [reflexivity|]. unfold nonword_head. simpl.
  intros Hc. apply negb_true_iff in Hc. now rewrite !match_here_nonword by auto.
Qed.

(** The scan splits at a token boundary. *)
Lemma sub_scan_app a b :
  nonword_head b = true ->
  forall prev k, (k <= length a)%nat ->
  sub_scan pat repl prev k (a ++ b)
  = sub_scan pat repl prev k a ++ sub_scan pat repl false 0 b.
Proof.
  intros Hb. induction a as [|c a IH]; intros prev k Hk.
  - simpl in Hk. replace k with 0%nat by lia. simpl. now apply sub_scan_nonword_head.
  - destruct k as [|k].
    + change (sub_scan pat repl prev 0 ((c :: a) ++ b))
        with (if match_here pat prev ((c :: a) ++ b)
              then repl ++ sub_scan pat repl (is_word c) (length pat - 1) (a ++ b)
              else c :: sub_scan pat repl (is_word c) 0 (a ++ b)).
      rewrite match_here_app by auto.
      change (sub_scan pat repl prev 0 (c :: a))
        with (if match_here pat prev (c :: a)
              then repl ++ sub_scan pat repl (is_word c) (length pat - 1) a
              else c :: sub_scan pat repl (is_word c) 0 a).
      destruct (match_here pat prev (c :: a)) eqn:Hm.
      * apply match_here_length in Hm. simpl in Hm.
        rewrite IH by lia. now rewrite app_assoc.
      * rewrite IH by lia. reflexivity.
    + simpl in *. apply IH. lia.
Qed.

(** Inside a word nothing matches: there is no boundary to start at. *)
Lemma sub_scan_inside_word w :
  all_word w = true -> sub_scan pat repl true 0 w = w.
Proof.
  induction w as [|c w IH]; intros Hw; [reflexivity|].
  simpl in Hw. apply andb_true_iff in Hw as [Hc Hw].
  simpl. unfold Sanitizer.match_here, Sanitizer.at_word_boundary at 1. simpl.
  rewrite Hc. simpl. rewrite IH by auto. reflexivity.
Qed.

Lemma match_here_token w :
  all_word w = true -> w <> [] ->
  match_here pat false w = ci_eq pat w.
Proof.
  intros Hw Hne. unfold Sanitizer.match_here.
  destruct w as [|c w]; [congruence|].
  assert (Hc : is_word c = true).
  { simpl in Hw. now apply andb_true_iff in Hw as [Hc _]. }
  unfold Sanitizer.at_word_boundary at 1. simpl head_is_word. rewrite Hc. simpl xorb.
  rewrite andb_true_l.
  destruct (match_literal pat false (c :: w)) as [[q rest]|] eqn:Hm.
  - destruct (match_literal_some _ _ _ _ _ pat_letters Hm) as (w0 & Heq & Hci & ->).
    unfold after_literal. destruct pat as [|p pat']; [congruence|].
    destruct rest as [|d rest].
    + rewrite app_nil_r in Heq. subst w0. now rewrite Hci.
    + assert (Hd : is_word d = true).
      { unfold all_word in Hw. rewrite Heq, forallb_app in Hw.
        apply andb_true_iff in Hw as [_ Hw]. simpl in Hw.
        now apply andb_true_iff in Hw as [Hd _]. }
      unfold Sanitizer.at_word_boundary. cbn [Sanitizer.head_is_word].
      rewrite Hd. change (xorb true true) with false.
      destruct (ci_eq (p :: pat') (c :: w)) eqn:Hci'; [|reflexivity].
      apply ci_eq_length in Hci, Hci'. rewrite Heq in Hci'.
      rewrite length_app in Hci'. simpl in Hci, Hci'. lia.
  - destruct (ci_eq pat (c :: w)) eqn:Hci; [|reflexivity].
    pose proof (match_literal_ci_eq pat false (c :: w) [] pat_letters Hci) as H.
    rewrite app_nil_r in H. congruence.
Qed.

Lemma re_sub_token w :
  all_word w = true ->
  re_sub pat repl w = if ci_eq pat w then repl else w.
Proof.
  intros Hw. unfold Sanitizer.re_sub.
  destruct w as [|c w].
  - destruct pat; [congruence|reflexivity].
  - change (sub_scan pat repl false 0 (c :: w))
      with (if match_here pat false (c :: w)
            then repl ++ sub_scan pat repl (is_word c) (length pat - 1) w
            else c :: sub_scan pat repl (is_word c) 0 w).
    rewrite match_here_token by (auto; discriminate).
    destruct (ci_eq pat (c :: w)) eqn:Hci.
    + apply ci_eq_length in Hci. simpl in Hci.
      rewrite sub_scan_skip_all by lia. apply app_nil_r.
    + simpl in Hw. apply andb_true_iff in Hw as [Hc Hw].
      rewrite Hc, sub_scan_inside_word by auto. reflexivity.
Qed.

Lemma re_sub_app a b :
  nonword_head b = true ->
  re_sub pat repl (a ++ b) = re_sub pat repl a ++ re_sub pat repl b.
Proof. intros Hb. unfold Sanitizer.re_sub. apply sub_scan_app; auto. lia. Qed.

Lemma re_sub_nonword c s :
  is_word c = false -> re_sub pat repl (c :: s) = c :: re_sub pat repl s.
Proof. intros Hc. unfold Sanitizer.re_sub. now apply sub_scan_nonword. Qed.

Lemma re_sub_nonword_head s :
  nonword_head s = true -> nonword_head (re_sub pat repl s) = true.
Proof.
  destruct s as [|c s]; [reflexivity|]. unfold nonword_head at 1. simpl.
  intros Hc. apply negb_true_iff in Hc. rewrite re_sub_nonword by auto.
  unfold nonword_head. simpl. now rewrite Hc.
Qed.

End Pass.

(** *** The whole table *)

Definition stable (rules : list (str * str)) (r : str) : Prop :=
  Forall (fun rule => re_sub (fst rule) (snd rule) r = r) rules.

Definition ends_nonword (s : str) : bool := nonword_head (rev s).

Lemma apply_rules_cons rule rules s :
  apply_rules (rule :: rules) s = apply_rules rules (re_sub (fst rule) (snd rule) s).
Proof. reflexivity. Qed.

Lemma apply_rules_app rules : well_formed rules ->
  forall a b, nonword_head b = true ->
  apply_rules rules (a ++ b) = apply_rules rules a ++ apply_rules rules b.
Proof.
  induction 1 as [|rule rules [Hne Hl] _ IH]; intros a b Hb; [reflexivity|].
  rewrite !apply_rules_cons, re_sub_app by auto.
  apply IH. now apply re_sub_nonword_head.
Qed.

Lemma apply_rules_nonword rules : well_formed rules ->
  forall c s, is_word c = false ->
  apply_rules rules (c :: s) = c :: apply_rules rules s.
Proof.
  induction 1 as [|rule rules [Hne Hl] _ IH]; intros c s Hc; [reflexivity|].
  rewrite !apply_rules_cons, re_sub_nonword by auto. now apply IH.
Qed.

Lemma apply_rules_nil rules : apply_rules rules [] = [].
Proof. induction rules as [|rule rules IH]; [reflexivity|]. now rewrite apply_rules_cons. Qed.

Lemma apply_rules_nonword_head rules s : well_formed rules ->
  nonword_head s = true -> nonword_head (apply_rules rules s) = true.
Proof.
  intros Hwf. destruct s as [|c s]; intros Hs.
  - now rewrite apply_rules_nil.
  - unfold nonword_head in Hs. simpl in Hs. apply negb_true_iff in Hs.
    rewrite apply_rules_nonword by auto. unfold nonword_head. simpl. now rewrite Hs.
Qed.

Lemma apply_rules_app_l rules a b : well_formed rules ->
  ends_nonword a = true ->
  apply_rules rules (a ++ b) = apply_rules rules a ++ apply_rules rules b.
Proof.
  intros Hwf Ha. unfold ends_nonword in Ha.
  destruct (rev a) as [|d l] eqn:Hrev.
  - apply (f_equal (@rev N)) in Hrev. rewrite rev_involutive in Hrev. subst a.
    now rewrite apply_rules_nil.
  - apply (f_equal (@rev N)) in Hrev. rewrite rev_involutive in Hrev. subst a.
    unfold nonword_head in Ha. simpl in Ha. apply negb_true_iff in Ha.
    simpl. rewrite <- app_assoc. simpl.
    rewrite (apply_rules_app rules Hwf (rev l) (d :: b)) by (unfold nonword_head; simpl; now rewrite Ha).
    rewrite (apply_rules_app rules Hwf (rev l) [d]) by (unfold nonword_head; simpl; now rewrite Ha).
    rewrite !apply_rules_nonword by auto.
    rewrite apply_rules_nil, <- app_assoc. reflexivity.
Qed.

Lemma apply_rules_stable rules r : stable rules r -> apply_rules rules r = r.
Proof.
  induction 1 as [|rule rules Hr _ IH]; [reflexivity|].
  now rewrite apply_rules_cons, Hr.
Qed.

(** A whole token becomes the replacement of the first rule it triggers,
    provided the later rules leave that replacement alone. *)
Lemma apply_rules_token rules w : well_formed rules ->
  Forall (fun rule => stable rules (snd rule)) rules ->
  all_word w = true ->
  apply_rules rules w = mask rules w.
Proof.
  intros Hwf. revert w. induction Hwf as [|rule rules [Hne Hl] _ IH]; intros w Hst Hw;
    [reflexivity|].
  apply Forall_cons in Hst as [Hrule Hst].
  rewrite apply_rules_cons, re_sub_token by auto.
  unfold mask, rule_for. simpl.
  destruct (ci_eq (fst rule) w) eqn:Hci.
  - apply apply_rules_stable. unfold stable in Hrule. now apply Forall_cons in Hrule as [_ ?].
  - apply IH; auto.
    eapply Forall_impl; [exact Hst|]. simpl. intros r Hr.
    unfold stable in Hr. now apply Forall_cons in Hr as [_ ?].
Qed.

Lemma mask_stable rules w : well_formed rules ->
  Forall (fun rule => stable rules (snd rule)) rules ->
  all_word w = true ->
  apply_rules rules (mask rules w) = mask rules w.
Proof.
  intros Hwf Hst Hw. unfold mask at 1 2. destruct (rule_for rules w) as [rule|] eqn:Hr.
  - apply apply_rules_stable. unfold rule_for in Hr. apply find_some in Hr as [Hin _].
    rewrite Forall_forall in Hst. now apply Hst, list_elem_of_In.
  - rewrite apply_rules_token by auto. unfold mask. now rewrite Hr.
Qed.

(** *** Reading a text token by token *)

Fixpoint word_prefix (s : str) : str * str :=
  match s with
  | c :: s' =>
      if is_word c then let '(w, rest) := word_prefix s' in (c :: w, rest) else ([], s)
  | [] => ([], [])
  end.

Lemma word_prefix_spec s w rest :
  word_prefix s = (w, rest) ->
  s = w ++ rest /\ all_word w = true /\ nonword_head rest = true.
Proof.
  revert w rest. induction s as [|c s IH]; intros w rest H; simpl in H.
  - injection H as <- <-. auto.
  - destruct (is_word c) eqn:Hc.
    + destruct (word_prefix s) as [w' rest'] eqn:Hs. injection H as <- <-.
      destruct (IH _ _ eq_refl) as (-> & Hw & Hr). simpl. rewrite Hc. auto.
    + injection H as <- <-. unfold nonword_head. simpl. rewrite Hc. auto.
Qed.

Lemma token_ind (P : str -> Prop) :
  P [] ->
  (forall c s, is_word c = false -> P s -> P (c :: s)) ->
  (forall w rest, w <> [] -> all_word w = true -> nonword_head rest = true ->
     P rest -> P (w ++ rest)) ->
  forall s, P s.
Proof.
  intros Hnil Hsep Htok s.
  remember (length s) as n eqn:Hn. revert s Hn.
  induction n as [n IH] using lt_wf_ind. intros s Hn.
  destruct s as [|c s]; [exact Hnil|].
  destruct (is_word c) eqn:Hc.
  - destruct (word_prefix (c :: s)) as [w rest] eqn:Hwp.
    destruct (word_prefix_spec _ _ _ Hwp) as (Heq & Hw & Hr).
    simpl in Hwp. rewrite Hc in Hwp. destruct (word_prefix s) as [w' rest'].
    injection Hwp as <- <-. rewrite Heq.
    apply Htok; [discriminate | exact Hw | exact Hr |].
    apply (IH (length rest')); auto.
    subst n. rewrite Heq. simpl. rewrite length_app. lia.
  - apply Hsep; auto. apply (IH (length s)); auto. subst n. simpl. lia.
Qed.

Lemma apply_rules_idempotent rules : well_formed rules ->
  Forall (fun rule => stable rules (snd rule)) rules ->
  forall s, apply_rules rules (apply_rules rules s) = apply_rules rules s.
Proof.
  intros Hwf Hst. apply token_ind.
  - now rewrite !apply_rules_nil.
  - intros c s Hc IH. rewrite !apply_rules_nonword by auto. now rewrite IH.
  - intros w rest _ Hw Hr IH.
    rewrite (apply_rules_app rules Hwf w rest Hr).
    rewrite (apply_rules_app rules Hwf _ _ (apply_rules_nonword_head rules rest Hwf Hr)).
    rewrite IH, (apply_rules_token rules w Hwf Hst Hw), (mask_stable rules w Hwf Hst Hw).
    reflexivity.
Qed.

(** *** The table of the program *)

Lemma sanitize_text_rules s : sanitize_text s = apply_rules replacements s.
Proof. destruct s; [|reflexivity]. now rewrite apply_rules_nil. Qed.

Lemma replacements_well_formed : well_formed replacements.
Proof. unfold well_formed. repeat constructor; discriminate. Qed.

Lemma replacements_stable :
  Forall (fun rule => stable replacements (snd rule)) replacements.
Proof.
  assert (H : forallb (fun rule =>
                forallb (fun rule' => str_eqb (re_sub (fst rule') (snd rule') (snd rule)) (snd rule))
                  replacements) replacements = true) by (vm_compute; reflexivity).
  rewrite forallb_forall in H. apply Forall_forall. intros rule Hin.
  apply list_elem_of_In, H in Hin. rewrite forallb_forall in Hin.
  apply Forall_forall. intros rule' Hin'. apply str_eqb_eq, Hin, list_elem_of_In, Hin'.
Qed.

Lemma replacements_functional pat repl repl' :
  In (pat, repl) replacements -> In (pat, repl') replacements -> repl = repl'.
Proof.
  assert (H : forallb (fun rule =>
                forallb (fun rule' => negb (str_eqb (fst rule) (fst rule'))
                                      || str_eqb (snd rule) (snd rule'))
                  replacements) replacements = true) by (vm_compute; reflexivity).
  rewrite forallb_forall in H. intros Hin Hin'.
  apply H in Hin. rewrite forallb_forall in Hin. apply Hin in Hin'. simpl in Hin'.
  rewrite str_eqb_refl in Hin'. simpl in Hin'. now apply str_eqb_eq.
Qed.

Lemma mask_trigger pat repl w :
  In (pat, repl) replacements -> ci_eq pat w = true -> mask replacements w = repl.
Proof.
  intros Hin Hci. unfold mask, rule_for.
  destruct (List.find (fun rule => ci_eq (fst rule) w) replacements) as [[pat' repl']|] eqn:Hf.
  - apply find_some in Hf as [Hin' Hci']. simpl in Hci'.
    pose proof replacements_well_formed as Hwf. unfold well_formed in Hwf.
    rewrite Forall_forall in Hwf.
    destruct (Hwf _ (proj2 (list_elem_of_In _ _) Hin)) as [_ Hl].
    destruct (Hwf _ (proj2 (list_elem_of_In _ _) Hin')) as [_ Hl'].
    simpl in Hl, Hl'. assert (pat' = pat) as -> by (eapply ci_eq_fun; eauto).
    eapply replacements_functional; eauto.
  - eapply find_none in Hf; [|exact Hin]. simpl in Hf. congruence.
Qed.

Lemma mask_other w :
  (forall pat repl, In (pat, repl) replacements -> ci_eq pat w = false) ->
  mask replacements w = w.
Proof.
  intros H. unfold mask, rule_for.
  destruct (List.find (fun rule => ci_eq (fst rule) w) replacements) as [[pat repl]|] eqn:Hf;
    [|reflexivity].
  apply find_some in Hf as [Hin Hci]. simpl in Hci. rewrite (H _ _ Hin) in Hci. discriminate.
Qed.

(** A token between two boundaries is rewritten on its own. *)
Lemma sanitize_text_token pre w post :
  ends_nonword pre = true -> all_word w = true -> nonword_head post = true ->
  sanitize_text (pre ++ w ++ post)
  = sanitize_text pre ++ mask replacements w ++ sanitize_text post.
Proof.
  intros Hpre Hw Hpost. rewrite !sanitize_text_rules.
  pose proof replacements_well_formed as Hwf.
  rewrite (apply_rules_app_l replacements pre (w ++ post) Hwf Hpre).
  rewrite (apply_rules_app replacements Hwf w post Hpost).
  rewrite (apply_rules_token replacements w Hwf replacements_stable Hw).
  reflexivity.
Qed.

End Facts.

(** C6, as the code has it.  For every text and every rule of the table:
    a whole word that is the rule's trigger in any letter case (it stands
    between the start of the text or a non-word character and the end of
    the text or a non-word character) is replaced by the rule's
    replacement, whatever surrounds it being sanitized on its own; every
    spelling of a trigger in upper and lower case ASCII letters is such a
    word; and a token of word characters that is no trigger of the table,
    in particular one that only contains a trigger, stays as it is. *)
Theorem sanitize_masks_whole_words (uni_alnum : N -> bool) :
  (forall pat repl pre w post,
     In (pat, repl) replacements -> ci_eq pat w = true ->
     ends_nonword uni_alnum pre = true -> nonword_head uni_alnum post = true ->
     sanitize_text uni_alnum (pre ++ w ++ post)
     = sanitize_text uni_alnum pre ++ repl ++ sanitize_text uni_alnum post)
  /\ (forall pat repl w,
        In (pat, repl) replacements -> map ascii_lower w = pat -> ci_eq pat w = true)
  /\ (forall pre w post,
        all_word uni_alnum w = true ->
        (forall pat repl, In (pat, repl) replacements -> ci_eq pat w = false) ->
        ends_nonword uni_alnum pre = true -> nonword_head uni_alnum post = true ->
        sanitize_text uni_alnum (pre ++ w ++ post)
        = sanitize_text uni_alnum pre ++ w ++ sanitize_text uni_alnum post).
Proof.
  split; [|split].
  - intros pat repl pre w post Hin Hci Hpre Hpost.
    pose proof (replacements_well_formed) as Hwf. unfold well_formed in Hwf.
    rewrite Forall_forall in Hwf.
    destruct (Hwf _ (proj2 (list_elem_of_In _ _) Hin)) as [_ Hl]. simpl in Hl.
    rewrite sanitize_text_token by eauto using ci_eq_all_word.
    now rewrite (mask_trigger pat repl w Hin Hci).
  - intros pat repl w Hin Hw.
    pose proof (replacements_well_formed) as Hwf. unfold well_formed in Hwf.
    rewrite Forall_forall in Hwf.
    destruct (Hwf _ (proj2 (list_elem_of_In _ _) Hin)) as [_ Hl]. simpl in Hl.
    now apply ci_eq_ascii_case.
  - intros pre w post Hw Hnone Hpre Hpost.
    rewrite sanitize_text_token by auto. now rewrite (mask_other w Hnone).
Qed.

Lemma sanitize_masks_whole_words_witness :
  sanitize_text (fun _ => false) (u "they " ++ u "KILLED" ++ u " it")
  = sanitize_text (fun _ => false) (u "they ") ++ u "Kil*led"
    ++ sanitize_text (fun _ => false) (u " it")
  /\ sanitize_text (fun _ => false) (u "the " ++ u "skillset" ++ u ".")
     = sanitize_text (fun _ => false) (u "the ") ++ u "skillset"
       ++ sanitize_text (fun _ => false) (u ".").
Proof.
  destruct (sanitize_masks_whole_words (fun _ => false)) as (Hhit & Hcase & Hmiss).
  split.
  - apply (Hhit (u "killed")).
    + vm_compute. tauto.
    + apply (Hcase _ (u "Kil*led")); [vm_compute; tauto | reflexivity].
    + reflexivity.
    + reflexivity.
  - apply Hmiss.
    + reflexivity.
    + intros pat repl Hin. vm_compute in Hin.
      repeat (destruct Hin as [Hin|Hin]; [injection Hin as <- <-; reflexivity|]).
      destruct Hin.
    + reflexivity.
    + reflexivity.
Defined.

(** C6 as stated fails: the token "kills" is longer than the trigger "kill"
    it begins with, and it is rewritten (it is a trigger of its own). *)
Lemma sanitize_rewrites_longer_trigger :
  u "kills" = u "kill" ++ u "s"
  /\ In (u "kill") (map fst replacements)
  /\ all_word (fun _ => false) (u "kills") = true
  /\ sanitize_text (fun _ => false) (u "kills") = u "Ki*lls"
  /\ sanitize_text (fun _ => false) (u "kills") <> u "kills".
Proof.
  repeat split; try reflexivity.
  - vm_compute. tauto.
  - vm_compute. discriminate.
Qed.

(** C7.  [sanitize_text] is idempotent on every text, and no rule of the
    table matches anywhere in a replacement of the table. *)
Theorem sanitize_idempotent (uni_alnum : N -> bool) :
  (forall s, sanitize_text uni_alnum (sanitize_text uni_alnum s)
             = sanitize_text uni_alnum s)
  /\ Forall (fun rule =>
       Forall (fun rule' => has_match uni_alnum (fst rule') false (snd rule) = false)
         replacements) replacements.
Proof.
  split.
  - intros s. rewrite !sanitize_text_rules.
    apply apply_rules_idempotent;
      [apply replacements_well_formed | apply replacements_stable].
  - assert (H : forallb (fun rule =>
                  forallb (fun rule' => negb (has_match uni_alnum (fst rule') false (snd rule)))
                    replacements) replacements = true) by (vm_compute; reflexivity).
    rewrite forallb_forall in H. apply Forall_forall. intros rule Hin.
    apply list_elem_of_In, H in Hin. rewrite forallb_forall in Hin.
    apply Forall_forall. intros rule' Hin'.
    apply list_elem_of_In, Hin in Hin'. now apply negb_true_iff in Hin'.
Qed.

End SanitizerFacts.

(* ================================================================== *)
(** ** Facts about the title layout *)
(* ================================================================== *)

Module CompositorFacts.

Import Compositor.

#[local] Arguments removelast : simpl never.

(** What [split] returns: non-empty runs without whitespace. *)
Definition token (w : str) : Prop :=
  w <> [] /\ forallb (fun c => negb (is_space c)) w = true.

Definition starts_nonspace (s : str) : bool :=
  match s with c :: _ => negb (is_space c) | [] => false end.

Lemma split_from_tokens s : forall cur,
  forallb (fun c => negb (is_space c)) cur = true ->
  Forall token (split_from cur s).
Proof.
  induction s as [|c s IH]; intros cur Hcur; simpl.
  - destruct cur as [|d cur]; constructor; [|constructor].
    split; [intros H; apply (f_equal (@length N)) in H; rewrite length_rev in H; discriminate|].
    now rewrite forallb_rev.
  - destruct (is_space c) eqn:Hc.
    + destruct cur as [|d cur]; [now apply IH|].
      constructor; [|now apply IH].
      split; [intros H; apply (f_equal (@length N)) in H; rewrite length_rev in H; discriminate|].
      now rewrite forallb_rev.
    + apply IH. simpl. now rewrite Hc.
Qed.

Lemma split_tokens title : Forall token (split title).
Proof. now apply split_from_tokens. Qed.

Lemma split_from_nonspace s : forall cur,
  forallb (fun c => negb (is_space c)) s = true ->
  split_from cur s = match rev cur ++ s with [] => [] | w => [w] end.
Proof.
  induction s as [|c s IH]; intros cur Hs; simpl.
  - rewrite app_nil_r. destruct cur as [|d cur]; [reflexivity|].
    destruct (rev (d :: cur)) eqn:H; [|reflexivity].
    apply (f_equal (@length N)) in H. rewrite length_rev in H. discriminate.
  - simpl in Hs. apply andb_true_iff in Hs as [Hc Hs]. apply negb_true_iff in Hc.
    rewrite Hc, IH by auto. simpl. now rewrite <- app_assoc.
Qed.

Lemma split_token w : token w -> split w = [w].
Proof.
  intros [Hne Hw]. unfold split. rewrite split_from_nonspace by auto.
  simpl. destruct w; congruence.
Qed.

(** *** [strip] on lines built from tokens *)

Lemma lstrip_keep s : starts_nonspace s = true -> lstrip s = s.
Proof.
  destruct s as [|c s]; [discriminate|]. simpl. intros H.
  apply negb_true_iff in H. now rewrite H.
Qed.

Lemma strip_keep s :
  starts_nonspace s = true -> starts_nonspace (rev s) = true -> strip s = s.
Proof.
  intros H1 H2. unfold strip. rewrite (lstrip_keep s H1), (lstrip_keep _ H2).
  apply rev_involutive.
Qed.

Lemma token_starts w x : token w -> starts_nonspace (w ++ x) = true.
Proof.
  intros [Hne Hw]. destruct w as [|c w]; [congruence|]. simpl in *.
  now apply andb_true_iff in Hw as [Hc _].
Qed.

Lemma token_rev w : token w -> token (rev w).
Proof.
  intros [Hne Hw]. split; [|now rewrite forallb_rev].
  intros H. apply (f_equal (@rev N)) in H. rewrite rev_involutive in H. auto.
Qed.

Lemma strip_token w : token w -> strip w = w.
Proof.
  intros Hw. apply strip_keep.
  - rewrite <- (app_nil_r w). now apply token_starts.
  - rewrite <- (app_nil_r (rev w)). now apply token_starts, token_rev.
Qed.

Lemma strip_first_word w : token w -> strip ([] ++ 32 :: w) = w.
Proof.
  intros Hw. unfold strip. simpl. now apply strip_token.
Qed.

Lemma strip_next_word line w :
  starts_nonspace line = true -> token w ->
  strip (line ++ 32 :: w) = line ++ 32 :: w.
Proof.
  intros Hl Hw. apply strip_keep.
  - destruct line; [discriminate|]. exact Hl.
  - rewrite rev_app_distr. simpl. rewrite <- app_assoc.
    now apply token_starts, token_rev.
Qed.



Section Wrap.

Variable text_width : str -> Z.
Variable max_text_width : Z.

Abbreviation fits := (fits text_width max_text_width).
Abbreviation trim_to_fit := (trim_to_fit text_width max_text_width).
Abbreviation hard_cut := (hard_cut text_width max_text_width).
Abbreviation loop_body := (loop_body text_width max_text_width).
Abbreviation while_loop := (while_loop text_width max_text_width).
Abbreviation ellipsize := (ellipsize text_width max_text_width).
Abbreviation wrap_words := (wrap_words text_width max_text_width).
Abbreviation words_left := (words_left text_width max_text_width).
Abbreviation layout_words := (layout_words text_width max_text_width).
Abbreviation wrap_title := (wrap_title text_width max_text_width).

(** *** The two trimming loops *)

Lemma length_removelast_le (s : str) : (length (removelast s) <= length s - 1)%nat.
Proof.
  induction s as [|c s IH]; [simpl; lia|].
  destruct s as [|d s]; [simpl; lia|].
  change (removelast (c :: d :: s)) with (c :: removelast (d :: s)).
  simpl length in *. lia.
Qed.

Lemma removelast_prefix (s : str) : exists t, s = removelast s ++ t.
Proof.
  destruct s as [|c s]; [exists []; reflexivity|].
  exists [List.last (c :: s) 0]. apply app_removelast_last. discriminate.
Qed.

Lemma trim_to_fit_spec n : forall hard, (length hard <= n)%nat ->
  (trim_to_fit n hard = [] \/ fits (trim_to_fit n hard) = true)
  /\ exists t, hard = trim_to_fit n hard ++ t.
Proof.
  induction n as [|n IH]; intros hard Hn.
  - destruct hard; [|simpl in Hn; lia]. simpl. split; [now left|now exists []].
  - destruct hard as [|c hard]; [simpl; split; [now left | now exists []]|].
    simpl. destruct (fits (c :: hard)) eqn:Hf.
    + split; [now right | exists []; now rewrite app_nil_r].
    + pose proof (length_removelast_le (c :: hard)) as Hl. simpl length in Hl, Hn.
      destruct (IH (removelast (c :: hard)) ltac:(lia)) as [H1 [t Ht]].
      split; [exact H1|].
      destruct (removelast_prefix (c :: hard)) as [t' Ht'].
      exists (t ++ t'). rewrite app_assoc, <- Ht. exact Ht'.
Qed.

(** The line a too wide word leaves: a non-empty prefix of the word that
    fits, or the first character of the word. *)
Lemma hard_cut_spec word : word <> [] ->
  hard_cut word <> []
  /\ (exists t, word = hard_cut word ++ t)
  /\ (fits (hard_cut word) = true \/ hard_cut word = firstn 1 word).
Proof.
  intros Hne. unfold Compositor.hard_cut.
  destruct (trim_to_fit_spec (length word) word (le_n _)) as [Hfit [t Ht]].
  destruct (trim_to_fit (length word) word) as [|c hard] eqn:Htrim.
  - destruct word as [|d word]; [congruence|]. simpl.
    split; [discriminate|]. split; [now exists word | now right].
  - split; [discriminate|]. split; [now exists t|].
    destruct Hfit as [Hfit|Hfit]; [discriminate | now left].
Qed.


Lemma ellipsize_spec n : forall last, (length last <= n)%nat ->
  (exists body t, ellipsize n last = body ++ ellipsis /\ last = body ++ t)
  /\ (fits (ellipsize n last) = true \/ ellipsize n last = ellipsis).
Proof.
  induction n as [|n IH]; intros last Hn.
  - destruct last; [|simpl in Hn; lia]. simpl. rewrite orb_true_r.
    split; [exists [], []; auto | now right].
  - simpl. destruct (fits (last ++ ellipsis) || (length last =? 0)%nat) eqn:Hc.
    + destruct last as [|c last].
      * split; [exists [], []; auto | now right].
      * simpl in Hc. rewrite orb_false_r in Hc.
        split; [exists (c :: last), []; now rewrite app_nil_r | now left].
    + pose proof (length_removelast_le last) as Hl.
      destruct (IH (removelast last) ltac:(lia)) as [(body & t & Hb & Ht) Hfit].
      split; [|exact Hfit].
      destruct (removelast_prefix last) as [t' Ht'].
      exists body, (t ++ t'). split; [exact Hb|].
      rewrite app_assoc, <- Ht. exact Ht'.
Qed.

(** *** The wrapping loop *)

Lemma while_loop_S fuel words st :
  while_loop (S fuel) words st
  = if loop_cond words st then while_loop fuel words (loop_body words st) else st.
Proof. reflexivity. Qed.

Section Loop.

Variable words : list str.

(** Words still to place plus lines still free: it falls in every turn. *)
Definition measure (st : wrap_state) : nat :=
  ((length words - word_index st) + (max_lines - length (lines st)))%nat.

Lemma loop_body_measure st :
  loop_cond words st = true -> (measure (loop_body words st) < measure st)%nat.
Proof.
  unfold loop_cond, Compositor.loop_body, measure, max_lines. intros H.
  apply andb_true_iff in H as [H1 H2]. apply Nat.ltb_lt in H1, H2.
  destruct (Compositor.fits _ _ _); simpl; [lia|].
  destruct (current_line st); simpl; rewrite length_app; simpl; lia.
Qed.

Lemma loop_body_lines st :
  loop_cond words st = true ->
  (length (lines (loop_body words st)) <= max_lines)%nat.
Proof.
  unfold loop_cond, Compositor.loop_body, max_lines. intros H.
  apply andb_true_iff in H as [H1 H2]. apply Nat.ltb_lt in H1, H2.
  destruct (Compositor.fits _ _ _); simpl; [lia|].
  destruct (current_line st); simpl; rewrite length_app; simpl; lia.
Qed.

(** The fuel of [wrap_words] is enough: the loop is left by its own
    condition. *)
Lemma while_loop_exits fuel : forall st,
  (measure st <= fuel)%nat -> loop_cond words (while_loop fuel words st) = false.
Proof.
  induction fuel as [|fuel IH]; intros st Hm.
  - simpl. unfold measure, loop_cond, max_lines in *.
    destruct (word_index st <? length words)%nat eqn:H1; [|reflexivity].
    destruct (length (lines st) <? 3)%nat eqn:H2; [|reflexivity].
    apply Nat.ltb_lt in H1, H2. lia.
  - rewrite while_loop_S. destruct (loop_cond words st) eqn:Hc; [|exact Hc].
    apply IH. pose proof (loop_body_measure st Hc). lia.
Qed.

Lemma while_loop_lines fuel : forall st,
  (length (lines st) <= max_lines)%nat ->
  (length (lines (while_loop fuel words st)) <= max_lines)%nat.
Proof.
  induction fuel as [|fuel IH]; intros st Hl; [exact Hl|].
  rewrite while_loop_S. destruct (loop_cond words st) eqn:Hc; [|exact Hl].
  apply IH. now apply loop_body_lines.
Qed.

Definition loop_exit : wrap_state :=
  while_loop (length words + max_lines) words (mkWrap [] [] 0).

Lemma loop_exit_cond : loop_cond words loop_exit = false.
Proof. apply while_loop_exits. unfold measure, max_lines. simpl. lia. Qed.

Lemma loop_exit_lines : (length (lines loop_exit) <= max_lines)%nat.
Proof. apply while_loop_lines. simpl. unfold max_lines. lia. Qed.

Lemma wrap_words_index : word_index (wrap_words words) = word_index loop_exit.
Proof.
  unfold Compositor.wrap_words. fold loop_exit.
  destruct (current_line loop_exit); [reflexivity|].
  now destruct (length (lines loop_exit) <? max_lines)%nat.
Qed.

Lemma wrap_words_lines : (length (lines (wrap_words words)) <= max_lines)%nat.
Proof.
  pose proof loop_exit_lines as Hl.
  unfold Compositor.wrap_words. fold loop_exit.
  destruct (current_line loop_exit); [exact Hl|].
  destruct (length (lines loop_exit) <? max_lines)%nat eqn:H; [|exact Hl].
  apply Nat.ltb_lt in H. simpl. rewrite length_app. simpl. lia.
Qed.


Lemma layout_words_length : (length (layout_words words) <= max_lines)%nat.
Proof.
  pose proof wrap_words_lines as Hl. unfold Compositor.layout_words.
  destruct (words_left words); [|exact Hl].
  destruct (rev (lines (wrap_words words))) as [|last before] eqn:Hrev; [exact Hl|].
  apply (f_equal (@length str)) in Hrev. rewrite length_rev in Hrev.
  rewrite length_app, length_rev. simpl in *. lia.
Qed.








End Loop.

(** *** A title that fits *)



(** *** A single word wider than the column *)


End Wrap.

(** Two metrics to evaluate the layout with: ten units a character, and
    one that makes a single line wide. *)
Definition ten_per_char (s : str) : Z := (10 * Z.of_nat (length s))%Z.





End CompositorFacts.

(* ================================================================== *)
(** ** Facts about the validator and the resolver *)
(* ================================================================== *)

Module ResolverFacts.

Import Resolver.

(** *** The validator *)

(** C2.  A fetched image that decodes to a width below 400 or a height
    below 250 is rejected; one fetched with status 200 that decodes to at
    least 400 by 250 is accepted, with its bytes; and the answer is a
    function of what the URL fetches: no stage is an input of it. *)
Theorem validator_floor (image_size : bytes -> option (Z * Z)) :
  (forall http_get url status content w h,
     http_get url = Fetched status content ->
     image_size content = Some (w, h) ->
     (w < 400 \/ h < 250)%Z ->
     download_and_validate_image http_get image_size url = None)
  /\ (forall http_get url content w h,
        http_get url = Fetched 200 content ->
        image_size content = Some (w, h) ->
        (400 <= w)%Z -> (250 <= h)%Z ->
        download_and_validate_image http_get image_size url = Some content)
  /\ (forall http_get http_get' url url',
        http_get url = http_get' url' ->
        download_and_validate_image http_get image_size url
        = download_and_validate_image http_get' image_size url').
Proof.
  unfold download_and_validate_image. split; [|split].
  - intros http_get url status content w h -> -> Hlow.
    destruct (negb (status =? 200)%Z); [reflexivity|].
    destruct (w <? 400)%Z eqn:Hw; [reflexivity|].
    destruct (h <? 250)%Z eqn:Hh; [reflexivity|].
    apply Z.ltb_ge in Hw, Hh. lia.
  - intros http_get url content w h -> -> Hw Hh. simpl.
    apply Z.ltb_ge in Hw, Hh. now rewrite Hw, Hh.
  - intros http_get http_get' url url' ->. reflexivity.
Qed.

(** Stand-ins for the environment, to evaluate the definitions with. *)
Definition any_image : bytes := [Byte.x89; Byte.x50; Byte.x4e; Byte.x47].

Definition serve_all (status : Z) (url : str) : fetched := Fetched status any_image.

Definition sized (w h : Z) (content : bytes) : option (Z * Z) := Some (w, h).

Lemma validator_floor_witness :
  download_and_validate_image (serve_all 200) (sized 399 600) (u "https://x/a.jpg") = None
  /\ download_and_validate_image (serve_all 200) (sized 400 250) (u "https://x/a.jpg")
     = Some any_image
  /\ download_and_validate_image (serve_all 200) (sized 400 250) (u "https://x/a.jpg")
     = download_and_validate_image (serve_all 200) (sized 400 250) (u "https://x/b.jpg").
Proof.
  destruct (validator_floor (sized 399 600)) as (Hlow & _ & _).
  destruct (validator_floor (sized 400 250)) as (_ & Hok & Hsame).
  split; [|split].
  - apply (Hlow (serve_all 200) _ 200%Z any_image 399%Z 600%Z); [reflexivity | reflexivity | lia].
  - apply (Hok (serve_all 200) _ any_image 400%Z 250%Z); [reflexivity | reflexivity | lia | lia].
  - apply Hsame. reflexivity.
Defined.

(** *** Stage order *)

Section Stages.

Variable str_lower : str -> str.
Variable urljoin : str -> str -> option str.
Variable http_get : str -> fetched.
Variable image_size : bytes -> option (Z * Z).
Variable render : str -> option soup.
Variable json_loads : str -> option json.

Abbreviation validate := (download_and_validate_image http_get image_size).
Abbreviation try_each := (try_each http_get image_size).

Lemma try_each_rejected urls :
  Forall (fun url => validate url = None) urls ->
  try_each urls = (None, map Validated urls).
Proof.
  induction 1 as [|url urls Hu _ IH]; [reflexivity|].
  simpl. now rewrite Hu, IH.
Qed.

Lemma try_each_accepts pre url img post :
  Forall (fun url => validate url = None) pre ->
  validate url = Some img ->
  try_each (pre ++ url :: post) = (Some img, map Validated (pre ++ [url])).
Proof.
  induction 1 as [|url' pre Hu _ IH]; intros Hok; simpl.
  - now rewrite Hok.
  - now rewrite Hu, IH.
Qed.

(** The first accepted URL of a list that has one. *)
Lemma first_accepted urls :
  (exists url, In url urls /\ validate url <> None) ->
  exists pre url img post,
    urls = pre ++ url :: post
    /\ Forall (fun url => validate url = None) pre
    /\ validate url = Some img.
Proof.
  induction urls as [|url urls IH]; intros (url' & Hin & Hok); [destruct Hin|].
  destruct (validate url) as [img|] eqn:Hv.
  - exists [], url, img, urls. auto.
  - destruct IH as (pre & url'' & img & post & -> & Hpre & Hok'').
    + destruct Hin as [<-|Hin]; [congruence|]. eauto.
    + exists (url :: pre), url'', img, post. auto.
Qed.

End Stages.

(** C3.  When the page is rendered and one of its meta-tag candidates
    (the non-logo URLs of the four meta tags, in their order) is accepted
    by the validator, the resolver returns the image of the first
    accepted one; it renders the article page, enters the meta-tag stage
    and validates the meta-tag candidates up to that one, and does
    nothing else: the JSON-LD stage and the inline stage are not entered,
    whatever the page holds for them. *)
Theorem meta_stage_wins (str_lower : str -> str) (urljoin : str -> str -> option str)
    (http_get : str -> fetched) (image_size : bytes -> option (Z * Z))
    (render : str -> option soup) (json_loads : str -> option json)
    (article_url : str) (page : soup) :
  render article_url = Some page ->
  (exists url, In url (meta_candidates str_lower urljoin article_url page)
               /\ download_and_validate_image http_get image_size url <> None) ->
  exists pre url img post,
    meta_candidates str_lower urljoin article_url page = pre ++ url :: post
    /\ Forall (fun url => download_and_validate_image http_get image_size url = None) pre
    /\ download_and_validate_image http_get image_size url = Some img
    /\ fetch_article_image str_lower urljoin http_get image_size render json_loads article_url
       = (Some img,
          Rendered article_url :: Entered MetaStage :: map Validated (pre ++ [url]))
    /\ ~ In (Entered JsonLdStage)
          (snd (fetch_article_image str_lower urljoin http_get image_size render
                  json_loads article_url))
    /\ ~ In (Entered InlineStage)
          (snd (fetch_article_image str_lower urljoin http_get image_size render
                  json_loads article_url)).
Proof.
  intros Hpage Hsome.
  destruct (first_accepted http_get image_size _ Hsome) as (pre & url & img & post & Hc & Hpre & Hok).
  exists pre, url, img, post.
  assert (Hfetch :
    fetch_article_image str_lower urljoin http_get image_size render json_loads article_url
    = (Some img, Rendered article_url :: Entered MetaStage :: map Validated (pre ++ [url]))).
  { unfold fetch_article_image, meta_stage. rewrite Hpage, Hc.
    now rewrite (try_each_accepts http_get image_size pre url img post Hpre Hok). }
  rewrite Hfetch. simpl snd.
  repeat split; auto.
  - intros [H|[H|H]]; try discriminate.
    apply in_map_iff in H as (x & Hx & _). discriminate.
  - intros [H|[H|H]]; try discriminate.
    apply in_map_iff in H as (x & Hx & _). discriminate.
Qed.

(** A page with an [og:image] and an inline image that would score 5. *)
Definition page_with_both : soup :=
  [ mkNode (mkTag (u "meta")
              [(u "property", u "og:image"); (u "content", u "https://x/og.jpg")] [] [])
           [mkTag (u "head") [] [] []];
    mkNode (mkTag (u "img") [(u "src", u "https://x/hero.jpg")] [u "featured"] [])
           [mkTag (u "div") [] [u "article-body"] []] ].

Definition keep_url (base url : str) : option str := Some url.

Lemma meta_stage_wins_witness :
  fst (fetch_article_image (map ascii_lower) keep_url (serve_all 200) (sized 800 600)
         (fun _ => Some page_with_both) (fun _ => None) (u "https://x/story"))
  = Some any_image
  /\ score_of (map ascii_lower) (mkNode (mkTag (u "img") [(u "src", u "https://x/hero.jpg")]
                                           [u "featured"] [])
                                   [mkTag (u "div") [] [u "article-body"] []]) = 5%nat.
Proof.
  split; [|reflexivity].
  destruct (meta_stage_wins (map ascii_lower) keep_url (serve_all 200) (sized 800 600)
              (fun _ => Some page_with_both) (fun _ => None) (u "https://x/story")
              page_with_both eq_refl)
    as (pre & url & img & post & Hc & Hpre & Hok & Hfetch & _).
  - exists (u "https://x/og.jpg"). split; [vm_compute; tauto | vm_compute; discriminate].
  - rewrite Hfetch. simpl. unfold download_and_validate_image in Hok. simpl in Hok.
    congruence.
Defined.

(** *** The inline stage: the string a candidate is made from *)

(** The first of the optional strings that is there and not empty. *)
Fixpoint first_nonempty (l : list (option str)) : option str :=
  match l with
  | [] => None
  | Some (c :: s) :: _ => Some (c :: s)
  | _ :: l' => first_nonempty l'
  end.

(** C4, as the code has it.  An [<img>] with a non-empty [srcset] yields
    the first URL of the [srcset] (the first whitespace-separated token
    before the first comma; the loop raises if there is none), whatever
    its [src] is.  Without a non-empty [srcset] it yields the first
    non-empty of [src], [data-src] and [data-original], and is skipped
    when there is none. *)
Theorem candidate_src_prefers_srcset (img : tag) :
  let attrs := tag_attrs img in
  (forall c srcset, get attrs (u "srcset") = Some (c :: srcset) ->
     candidate_src img
     = match split (before_comma (c :: srcset)) with
       | first :: _ => Src first
       | [] => SrcRaised
       end)
  /\ (nonempty (get attrs (u "srcset")) = false ->
      candidate_src img
      = match first_nonempty [get attrs (u "src"); get attrs (u "data-src");
                              get attrs (u "data-original")] with
        | Some src => Src src
        | None => Skip
        end).
Proof.
  cbv zeta. unfold candidate_src, has_attr, or_else. split.
  - intros c srcset Hs. rewrite Hs.
    destruct (get (tag_attrs img) (u "src")) as [[|? ?]|];
      destruct (get (tag_attrs img) (u "data-src")) as [[|? ?]|];
      destruct (get (tag_attrs img) (u "data-original")) as [[|? ?]|]; reflexivity.
  - intros Hs.
    destruct (get (tag_attrs img) (u "srcset")) as [[|? ?]|]; try discriminate;
      destruct (get (tag_attrs img) (u "src")) as [[|? ?]|];
      destruct (get (tag_attrs img) (u "data-src")) as [[|? ?]|];
      destruct (get (tag_attrs img) (u "data-original")) as [[|? ?]|]; reflexivity.
Qed.

Definition img_src_and_srcset : tag :=
  mkTag (u "img")
    [(u "src", u "a.jpg"); (u "srcset", u "b.jpg 2x, c.jpg 3x")] [] [].

Lemma candidate_src_prefers_srcset_witness :
  candidate_src img_src_and_srcset = Src (u "b.jpg")
  /\ candidate_src (mkTag (u "img") [(u "data-src", u "d.jpg")] [] []) = Src (u "d.jpg").
Proof.
  split.
  - destruct (candidate_src_prefers_srcset img_src_and_srcset) as [Hset _].
    apply (Hset _ _ eq_refl).
  - destruct (candidate_src_prefers_srcset (mkTag (u "img") [(u "data-src", u "d.jpg")] [] []))
      as [_ Hnone].
    apply Hnone. reflexivity.
Defined.

(** C4 as stated fails: an element with both a [src] and a [srcset]
    yields the first URL of the [srcset], not the [src]. *)
Lemma candidate_src_counterexample :
  get (tag_attrs img_src_and_srcset) (u "src") = Some (u "a.jpg")
  /\ get (tag_attrs img_src_and_srcset) (u "srcset") = Some (u "b.jpg 2x, c.jpg 3x")
  /\ candidate_src img_src_and_srcset = Src (u "b.jpg")
  /\ candidate_src img_src_and_srcset <> Src (u "a.jpg").
Proof. repeat split; try reflexivity. vm_compute. discriminate. Qed.

(** *** The inline stage: scores and their order *)

Definition has_score (v : nat) (c : candidate) : bool := (score c =? v)%nat.

(** Scores fall from the head of the list to its end. *)
Definition falling (c d : candidate) : Prop := (score d <= score c)%nat.

Lemma insert_desc_perm c l : Permutation (insert_desc c l) (c :: l).
Proof.
  induction l as [|d l IH]; [reflexivity|]. simpl.
  destruct (score d <=? score c)%nat; [reflexivity|].
  rewrite IH. apply perm_swap.
Qed.

Lemma sort_desc_perm l : Permutation (sort_desc l) l.
Proof.
  induction l as [|c l IH]; [reflexivity|]. simpl.
  rewrite insert_desc_perm. now constructor.
Qed.

Lemma insert_desc_sorted c l :
  StronglySorted falling l -> StronglySorted falling (insert_desc c l).
Proof.
  induction 1 as [|d l Hl IH Hd]; simpl; [repeat constructor|].
  destruct (score d <=? score c)%nat eqn:Hle.
  - apply Nat.leb_le in Hle. constructor; [now constructor|].
    constructor; [exact Hle|].
    eapply Forall_impl; [exact Hd|]. unfold falling. simpl. intros x Hx. lia.
  - apply Nat.leb_gt in Hle. constructor; [exact IH|].
    rewrite insert_desc_perm. constructor; [unfold falling; lia | exact Hd].
Qed.

Lemma sort_desc_sorted l : StronglySorted falling (sort_desc l).
Proof.
  induction l as [|c l IH]; [constructor|]. simpl. now apply insert_desc_sorted.
Qed.

Lemma insert_desc_filter v c l :
  List.filter (has_score v) (insert_desc c l)
  = List.filter (has_score v) (c :: l).
Proof.
  induction l as [|d l IH]; [reflexivity|].
  change (insert_desc c (d :: l))
    with (if (score d <=? score c)%nat then c :: d :: l else d :: insert_desc c l).
  destruct (score d <=? score c)%nat eqn:Hle; [reflexivity|].
  apply Nat.leb_gt in Hle.
  change (List.filter (has_score v) (d :: insert_desc c l))
    with (if has_score v d then d :: List.filter (has_score v) (insert_desc c l)
          else List.filter (has_score v) (insert_desc c l)).
  rewrite IH. simpl. unfold has_score.
  destruct (score c =? v)%nat eqn:Hc; destruct (score d =? v)%nat eqn:Hd; try reflexivity.
  apply Nat.eqb_eq in Hc, Hd. lia.
Qed.

Lemma sort_desc_stable v l :
  List.filter (has_score v) (sort_desc l) = List.filter (has_score v) l.
Proof.
  induction l as [|c l IH]; [reflexivity|].
  change (sort_desc (c :: l)) with (insert_desc c (sort_desc l)).
  rewrite insert_desc_filter. simpl. now rewrite IH.
Qed.

(** *** What the inline stage scores and tries *)

Lemma starts_with_spec k : forall s,
  starts_with k s = true <-> exists post, s = k ++ post.
Proof.
  induction k as [|a k IH]; intros s; simpl.
  - split; [intros _; now exists s | reflexivity].
  - destruct s as [|b s].
    + split; [discriminate | intros [post H]; discriminate].
    + rewrite andb_true_iff, N.eqb_eq, IH. split.
      * intros [-> [post ->]]. now exists post.
      * intros [post H]. injection H as -> ->. split; [reflexivity | now exists post].
Qed.

Lemma contains_unfold k s :
  contains k s
  = starts_with k s || match s with [] => false | _ :: s' => contains k s' end.
Proof. now destruct s. Qed.

Lemma contains_spec k s :
  contains k s = true <-> exists pre post, s = pre ++ k ++ post.
Proof.
  split.
  - induction s as [|c s IH]; rewrite contains_unfold, orb_true_iff.
    + intros [H|H]; [|discriminate].
      apply starts_with_spec in H as [post H]. now exists [], post.
    + intros [H|H].
      * apply starts_with_spec in H as [post H]. now exists [], post.
      * destruct (IH H) as (pre & post & ->). now exists (c :: pre), post.
  - intros (pre & post & ->). induction pre as [|c pre IH].
    + rewrite contains_unfold. apply orb_true_iff. left.
      apply starts_with_spec. now exists post.
    + change ((c :: pre) ++ k ++ post) with (c :: (pre ++ k ++ post)).
      rewrite contains_unfold, IH. apply orb_true_r.
Qed.

Lemma filter_sublist {A} (f : A -> bool) (l : list A) : sublist (List.filter f l) l.
Proof.
  induction l as [|a l IH]; [constructor|].
  simpl. destruct (f a); now constructor.
Qed.

(** What the two tests of the scoring look at: the classes of the
    element right above the image, joined by spaces and lower-cased, and
    the image's own list of classes. *)
Lemma score_of_spec (str_lower : str -> str) (img : node) :
  exists content prominent : bool,
    score_of str_lower img
    = ((if content then 2 else 0) + (if prominent then 3 else 0))%nat
    /\ (content = true <->
          exists k pre post,
            In k content_keywords
            /\ str_lower (match node_ancestors img with
                          | p :: _ => join_space (tag_classes p)
                          | [] => []
                          end) = pre ++ k ++ post)
    /\ (prominent = true <->
          exists k, In k prominence_keywords /\ In k (tag_classes (node_tag img))).
Proof.
  exists (in_content_area str_lower img), (is_prominent img).
  split; [reflexivity|]. split.
  - unfold in_content_area. rewrite existsb_exists.
    assert (Hp : parent_classes img
                 = match node_ancestors img with
                   | p :: _ => join_space (tag_classes p)
                   | [] => []
                   end) by (unfold parent_classes, parent; now destruct (node_ancestors img)).
    rewrite Hp. split.
    + intros (k & Hk & Hin). apply contains_spec in Hin as (pre & post & Heq).
      now exists k, pre, post.
    + intros (k & pre & post & Hk & Heq). exists k. split; [exact Hk|].
      apply contains_spec. now exists pre, post.
  - unfold is_prominent. rewrite existsb_exists. split.
    + intros (k & Hk & Hin). exists k. split; [exact Hk|].
      apply existsb_exists in Hin as (c & Hc & Heq).
      apply str_eqb_eq in Heq. now subst.
    + intros (k & Hk & Hin). exists k. split; [exact Hk|].
      apply existsb_exists. exists k. split; [exact Hin | apply str_eqb_refl].
Qed.

Section Collect.

Variable str_lower : str -> str.
Variable urljoin : str -> str -> option str.
Variable article_url : str.

Lemma collect_scores imgs : forall cs,
  collect str_lower urljoin article_url imgs = Some cs ->
  Forall (fun c => score c = score_of str_lower (img_tag c)) cs.
Proof.
  induction imgs as [|img imgs IH]; intros cs Hc; simpl in Hc.
  - injection Hc as <-. constructor.
  - destruct (candidate_src (node_tag img)); [now apply IH | discriminate |].
    destruct (usable _ _); [|now apply IH].
    destruct (collect str_lower urljoin article_url imgs) as [cs'|]; [|discriminate].
    injection Hc as <-. constructor; [reflexivity | now apply IH].
Qed.

Lemma collect_sublist imgs : forall cs,
  collect str_lower urljoin article_url imgs = Some cs ->
  sublist (map img_tag cs) imgs.
Proof.
  induction imgs as [|img imgs IH]; intros cs Hc; simpl in Hc.
  - injection Hc as <-. constructor.
  - destruct (candidate_src (node_tag img));
      [apply sublist_cons; now apply IH | discriminate |].
    destruct (usable _ _); [|apply sublist_cons; now apply IH].
    destruct (collect str_lower urljoin article_url imgs) as [cs'|]; [|discriminate].
    injection Hc as <-. simpl. apply sublist_skip. now apply IH.
Qed.

End Collect.

(** Four images: no class anywhere; a content-area class on the parent;
    a prominence class and a content-area class in upper case on the
    parent; a prominence class alone. *)
Definition img_plain : node :=
  mkNode (mkTag (u "img") [(u "src", u "https://x/plain.jpg")] [] [])
         [mkTag (u "div") [] [] []].

Definition img_body : node :=
  mkNode (mkTag (u "img") [(u "src", u "https://x/body.jpg")] [] [])
         [mkTag (u "div") [] [u "wide"; u "entry-content"] []].

Definition img_lead : node :=
  mkNode (mkTag (u "img") [(u "src", u "https://x/lead.jpg")] [u "lead"] [])
         [mkTag (u "figure") [] [u "Post-Media"] []].

Definition img_hero : node :=
  mkNode (mkTag (u "img") [(u "src", u "https://x/hero.jpg")] [u "big"; u "hero"] [])
         [mkTag (u "div") [] [] []].

Definition scored_page : soup := [img_plain; img_body; img_lead; img_hero].

Definition scored_candidates : list candidate :=
  [ mkCandidate 0 (u "https://x/plain.jpg") img_plain;
    mkCandidate 2 (u "https://x/body.jpg") img_body;
    mkCandidate 5 (u "https://x/lead.jpg") img_lead;
    mkCandidate 3 (u "https://x/hero.jpg") img_hero ].

(** C5, as the code has it.  Let the loop over the images of the page
    give the candidates.  Each candidate scores 2 if the class names of
    the element right above its image, joined by spaces and lower-cased,
    contain a content-area keyword as a substring, plus 3 if one of the
    image's own class names is a prominence keyword, and 0 otherwise; the
    candidates stand in document order.  The stage then tries the first
    eight of them in the order of falling score, those of equal score in
    document order. *)
Theorem inline_scores_and_order (str_lower : str -> str)
    (urljoin : str -> str -> option str) (http_get : str -> fetched)
    (image_size : bytes -> option (Z * Z)) (render : str -> option soup)
    (article_url : str) (page : soup) (img_candidates : list candidate) :
  collect str_lower urljoin article_url (find_all page (u "img")) = Some img_candidates ->
  Forall (fun c =>
            exists content prominent : bool,
              score c = ((if content then 2 else 0) + (if prominent then 3 else 0))%nat
              /\ (content = true <->
                    exists k pre post,
                      In k content_keywords
                      /\ str_lower (match node_ancestors (img_tag c) with
                                    | p :: _ => join_space (tag_classes p)
                                    | [] => []
                                    end) = pre ++ k ++ post)
              /\ (prominent = true <->
                    exists k, In k prominence_keywords
                              /\ In k (tag_classes (node_tag (img_tag c)))))
    img_candidates
  /\ sublist (map img_tag img_candidates) page
  /\ exists tried,
       Permutation tried img_candidates
       /\ StronglySorted falling tried
       /\ (forall v, List.filter (has_score v) tried
                     = List.filter (has_score v) img_candidates)
       /\ inline_stage str_lower urljoin http_get image_size render article_url page
          = (let '(r, t) := try_inline str_lower urljoin http_get image_size render
                              article_url (firstn 8 tried) in
             (match r with Some img => Found img | None => NotFound end, t)).
Proof.
  intros Hc. split; [|split].
  - eapply Forall_impl; [exact (collect_scores _ _ _ _ _ Hc)|].
    intros c Hscore. simpl in Hscore. rewrite Hscore. apply score_of_spec.
  - transitivity (find_all page (u "img")).
    + exact (collect_sublist _ _ _ _ _ Hc).
    + apply filter_sublist.
  - exists (sort_desc img_candidates).
    split; [apply sort_desc_perm|]. split; [apply sort_desc_sorted|].
    split; [intros v; apply sort_desc_stable|].
    unfold inline_stage. now rewrite Hc.
Qed.

Lemma inline_scores_and_order_witness :
  sublist (map img_tag scored_candidates) scored_page
  /\ exists tried,
       Permutation tried scored_candidates
       /\ StronglySorted falling tried
       /\ inline_stage (map ascii_lower) keep_url (serve_all 404) (sized 800 600)
            (fun _ => None) (u "https://x/story") scored_page
          = (let '(r, t) := try_inline (map ascii_lower) keep_url (serve_all 404)
                              (sized 800 600) (fun _ => None) (u "https://x/story")
                              (firstn 8 tried) in
             (match r with Some img => Found img | None => NotFound end, t)).
Proof.
  destruct (inline_scores_and_order (map ascii_lower) keep_url (serve_all 404)
              (sized 800 600) (fun _ => None) (u "https://x/story") scored_page
              scored_candidates)
    as (_ & Hdoc & tried & Hperm & Hsorted & _ & Hrun).
  - reflexivity.
  - split; [exact Hdoc|]. exists tried. auto.
Defined.

(** An image whose class only contains a prominence keyword, and an
    image whose grandparent, not its parent, has a content-area class. *)
Definition img_class_contains : node :=
  mkNode (mkTag (u "img") [(u "src", u "https://x/a.jpg")] [u "featured-image"] [])
         [mkTag (u "div") [] [] []].

Definition img_below_link : node :=
  mkNode (mkTag (u "img") [(u "src", u "https://x/b.jpg")] [] [])
         [mkTag (u "a") [] [] []; mkTag (u "div") [] [u "article-body"] []].

(** C5 as stated fails: the stage gives both images the score 0, though
    the class of the first contains "featured" and a class above the
    second contains "article". *)
Lemma inline_scores_counterexample :
  contains (u "featured") (u "featured-image") = true
  /\ contains (u "article") (u "article-body") = true
  /\ collect (map ascii_lower) keep_url (u "https://x/story")
       (find_all [img_class_contains; img_below_link] (u "img"))
     = Some [ mkCandidate 0 (u "https://x/a.jpg") img_class_contains;
              mkCandidate 0 (u "https://x/b.jpg") img_below_link ].
Proof. repeat split; reflexivity. Qed.

End ResolverFacts.

(* ================================================================== *)
(** ** Facts about the deduplication store and the pipeline *)
(* ================================================================== *)

Module StoreFacts.

Import Store.

(** *** A reader and a writer for a fragment of JSON, to evaluate the
        store with: arrays of plain strings, plain strings, naturals. *)

Fixpoint read_string (acc : str) (s : str) : option (str * str) :=
  match s with
  | [] => None
  | c :: s' => if c =? 34 then Some (rev acc, s') else read_string (c :: acc) s'
  end.

Fixpoint read_items (fuel : nat) (s : str) : option (list json) :=
  match fuel with
  | O => None
  | S fuel' =>
      match s with
      | 93 :: [] => Some []
      | 34 :: s' =>
          match read_string [] s' with
          | Some (item, 44 :: 32 :: rest) => cons (JStr item) <$> read_items fuel' rest
          | Some (item, 93 :: []) => Some [JStr item]
          | _ => None
          end
      | _ => None
      end
  end.

Definition decimal (s : str) : Z :=
  fold_left (fun n c => (10 * n + Z.of_N (c - 48))%Z) s 0%Z.

Definition plain_value (s : str) : option json :=
  match s with
  | 91 :: rest => JArr <$> read_items (length rest) rest
  | 34 :: rest =>
      match read_string [] rest with
      | Some (item, []) => Some (JStr item)
      | _ => None
      end
  | _ :: _ => if forallb is_ascii_digit s then Some (JNum (decimal s)) else None
  | [] => None
  end.

(** The reader never raises anything but [JSONDecodeError]. *)
Definition plain_loads (s : str) : parsed :=
  match plain_value s with
  | Some v => Parsed v
  | None => DecodeError
  end.

Fixpoint plain_items (items : list json) : str :=
  match items with
  | [] => []
  | JStr s :: rest =>
      34 :: s ++ 34 :: match rest with [] => [] | _ => 44 :: 32 :: plain_items rest end
  | _ :: rest => plain_items rest
  end.

Definition plain_dumps (v : json) : str :=
  match v with
  | JArr items => 91 :: plain_items items ++ [93]
  | _ => u "null"
  end.

(** *** Loading *)

Lemma hashable_to_json m : hashable (to_json m) = Some m.
Proof. now destruct m. Qed.

Lemma mapM_hashable_to_json l : mapM hashable (map to_json l) = Some l.
Proof.
  induction l as [|m l IH]; [reflexivity|].
  simpl. rewrite hashable_to_json. simpl. now rewrite IH.
Qed.

Lemma set_of_url_array urls :
  set_of (JArr (map JStr urls)) = Some (list_to_set (map MStr urls)).
Proof.
  change (map JStr urls) with (map (fun s => to_json (MStr s)) urls).
  rewrite <- (map_map MStr to_json). simpl. now rewrite mapM_hashable_to_json.
Qed.

(** C10, as the code has it.  An absent file, a file that is empty or
    holds only whitespace, and a file whose content [json.loads] rejects
    with [JSONDecodeError] each leave the set empty, and the load
    returns.  A file holding a JSON array of strings gives the set of
    those strings.  A non-empty set comes only from a file that can be
    read, whose content [json.loads] parses and [set] accepts. *)
Theorem load_tolerates_bad_files (json_loads : str -> parsed) :
  load_posted_links json_loads Absent = Loaded ∅
  /\ (forall text, strip text = [] -> load_posted_links json_loads (Holds text) = Loaded ∅)
  /\ (forall text, json_loads (strip text) = DecodeError ->
        load_posted_links json_loads (Holds text) = Loaded ∅)
  /\ (forall text urls,
        strip text <> [] ->
        json_loads (strip text) = Parsed (JArr (map JStr urls)) ->
        load_posted_links json_loads (Holds text) = Loaded (list_to_set (map MStr urls)))
  /\ (forall file links,
        load_posted_links json_loads file = Loaded links -> links <> ∅ ->
        exists text v,
          file = Holds text /\ json_loads (strip text) = Parsed v /\ set_of v = Some links).
Proof.
  unfold load_posted_links. split; [reflexivity|]. split; [|split; [|split]].
  - intros text ->. reflexivity.
  - intros text Hbad. destruct (strip text); [reflexivity|]. now rewrite Hbad.
  - intros text urls Hne Hdoc. destruct (strip text) as [|c content]; [congruence|].
    now rewrite Hdoc, set_of_url_array.
  - intros file links Hload Hne. destruct file as [| |text]; [congruence|discriminate|].
    exists text. destruct (strip text) as [|c content]; [congruence|].
    destruct (json_loads (c :: content)) as [v| |]; [|congruence|discriminate].
    exists v. destruct (set_of v) as [links'|]; [|discriminate].
    injection Hload as ->. auto.
Qed.

Lemma load_tolerates_bad_files_witness :
  load_posted_links plain_loads (Holds (u "   ")) = Loaded ∅
  /\ load_posted_links plain_loads (Holds (u "[oops")) = Loaded ∅
  /\ load_posted_links plain_loads (Holds (91 :: 34 :: u "https://x/1" ++ [34; 93]))
     = Loaded (list_to_set (map MStr [u "https://x/1"])).
Proof.
  destruct (load_tolerates_bad_files plain_loads) as (_ & Hblank & Hbad & Harr & _).
  split; [|split].
  - apply Hblank. reflexivity.
  - apply Hbad. reflexivity.
  - apply Harr; [vm_compute; discriminate | reflexivity].
Defined.

(** C10 as stated fails on content that is JSON but no array: the
    document [7] makes the load raise, and the document of the string
    [ab] (in quotes) gives a set of two members.  It fails as well on a
    file that cannot be decoded as text: the load raises. *)
Lemma load_counterexample :
  plain_loads (u "7") = Parsed (JNum 7)
  /\ load_posted_links plain_loads (Holds (u "7")) = LoadRaised
  /\ plain_loads (34 :: u "ab" ++ [34]) = Parsed (JStr (u "ab"))
  /\ load_posted_links plain_loads (Holds (34 :: u "ab" ++ [34]))
     = Loaded {[ MStr (u "a"); MStr (u "b") ]}
  /\ MStr (u "a") ∈ ({[ MStr (u "a"); MStr (u "b") ]} : gset member)
  /\ load_posted_links plain_loads Unreadable = LoadRaised.
Proof.
  repeat split; try reflexivity; set_solver.
Qed.

(** *** Saving, then loading *)

(** C9.  Let the set hold the URLs inserted in any order, let the write
    of [save] go through and let the JSON library read back the document
    it wrote.  Then [load] on the saved file gives exactly that set,
    whatever order the set is iterated in when it is saved; and the set,
    hence the result, is the same for every order of insertion. *)
Theorem save_then_load (json_loads : str -> parsed) (json_dumps : json -> str)
    (set_order : gset member -> list member) (inserted : list str) (file : disk) :
  let posted : gset member := list_to_set (map MStr inserted) in
  let document := JArr (map to_json (set_order posted)) in
  set_order posted ≡ₚ elements posted ->
  strip (json_dumps document) <> [] ->
  json_loads (strip (json_dumps document)) = Parsed document ->
  load_posted_links json_loads
    (save_posted_links json_dumps set_order WriteDone posted file) = Loaded posted
  /\ forall inserted', inserted' ≡ₚ inserted ->
       list_to_set (map MStr inserted') = posted.
Proof.
  cbv zeta. intros Horder Hne Hdoc. split.
  - unfold load_posted_links, save_posted_links.
    destruct (strip _) as [|c content] eqn:Htext; [congruence|].
    rewrite Hdoc. simpl. rewrite mapM_hashable_to_json. simpl. f_equal.
    rewrite Horder. apply list_to_set_elements_L.
  - intros inserted' Hperm. now rewrite Hperm.
Qed.

Lemma save_then_load_witness :
  load_posted_links plain_loads
    (save_posted_links plain_dumps elements WriteDone
       (list_to_set (map MStr [u "https://x/1"; u "https://x/2"])) Absent)
  = Loaded (list_to_set (map MStr [u "https://x/1"; u "https://x/2"])).
Proof.
  apply (save_then_load plain_loads plain_dumps elements [u "https://x/1"; u "https://x/2"]
           Absent).
  - reflexivity.
  - vm_compute. discriminate.
  - vm_compute. reflexivity.
Defined.

(** *** Processing the articles *)

Section Pipeline.

Variable json_dumps : json -> str.
Variable set_order : gset member -> list member.

Abbreviation process_article := (process_article json_dumps set_order).
Abbreviation process_and_send_news := (process_and_send_news json_dumps set_order).

Lemma process_article_cases st art env :
  (process_article st (art, env) = st)
  \/ (card env <> None
      /\ send_telegram_photo_sync (photo_reply env) = true
      /\ posted_links (process_article st (art, env)) = {[ MStr (link art) ]} ∪ posted_links st
      /\ delivered (process_article st (art, env)) = link art :: delivered st).
Proof.
  unfold Store.process_article.
  destruct (bool_decide _); [now left|].
  destruct (card env) as [image_data|]; [|now left].
  destruct (send_telegram_photo_sync (photo_reply env)); [|now left].
  right. auto.
Qed.

Lemma process_article_unsent st art env :
  send_telegram_photo_sync (photo_reply env) = false ->
  process_article st (art, env) = st.
Proof.
  intros Hsend. destruct (process_article_cases st art env) as [H|(_ & H & _)];
    [exact H | congruence].
Qed.

Lemma process_and_send_news_cons a news st :
  process_and_send_news (a :: news) st = process_and_send_news news (process_article st a).
Proof. reflexivity. Qed.

Lemma process_and_send_news_members news : forall st m,
  m ∈ posted_links (process_and_send_news news st) ->
  m ∈ posted_links st
  \/ exists art env, In (art, env) news /\ m = MStr (link art)
                     /\ card env <> None
                     /\ send_telegram_photo_sync (photo_reply env) = true.
Proof.
  induction news as [|[art env] news IH]; intros st m Hm; [now left|].
  rewrite process_and_send_news_cons in Hm.
  apply IH in Hm as [Hm|(art' & env' & Hin & Heq)].
  - destruct (process_article_cases st art env) as [Hsame|(Hcard & Hsend & Hposted & _)].
    + rewrite Hsame in Hm. now left.
    + rewrite Hposted in Hm. apply elem_of_union in Hm as [Hm|Hm]; [|now left].
      apply elem_of_singleton in Hm. right. exists art, env. simpl. auto.
  - right. exists art', env'. simpl. auto.
Qed.

Lemma process_and_send_news_delivered news : forall st,
  (forall url, MStr url ∈ posted_links st -> In url (delivered st)) ->
  forall url, MStr url ∈ posted_links (process_and_send_news news st) ->
              In url (delivered (process_and_send_news news st)).
Proof.
  induction news as [|[art env] news IH]; intros st Hinv; [exact Hinv|].
  rewrite process_and_send_news_cons. apply IH. intros url Hurl.
  destruct (process_article_cases st art env) as [Hsame|(_ & _ & Hposted & Hdel)].
  - rewrite Hsame in *. now apply Hinv.
  - rewrite Hposted in Hurl. rewrite Hdel.
    apply elem_of_union in Hurl as [Hurl|Hurl].
    + apply elem_of_singleton in Hurl. injection Hurl as ->. now left.
    + right. now apply Hinv.
Qed.

End Pipeline.

(** C8.  An article whose photo is not delivered (the reply is not a
    success, or the request raised) leaves the store, the file and the
    log as they were.  After a cycle every member of the set was in it
    before or is the link of an article of the cycle whose card was made
    and whose photo was delivered.  And if every link of the set was
    delivered before the cycle, the same holds after it. *)
Theorem posted_only_after_delivery (json_dumps : json -> str)
    (set_order : gset member -> list member) :
  (forall st art env,
     send_telegram_photo_sync (photo_reply env) = false ->
     process_article json_dumps set_order st (art, env) = st)
  /\ (forall news st m,
        m ∈ posted_links (process_and_send_news json_dumps set_order news st) ->
        m ∈ posted_links st
        \/ exists art env, In (art, env) news /\ m = MStr (link art)
                           /\ card env <> None
                           /\ send_telegram_photo_sync (photo_reply env) = true)
  /\ (forall news st,
        (forall url, MStr url ∈ posted_links st -> In url (delivered st)) ->
        forall url,
          MStr url ∈ posted_links (process_and_send_news json_dumps set_order news st) ->
          In url (delivered (process_and_send_news json_dumps set_order news st))).
Proof.
  split; [|split].
  - apply process_article_unsent.
  - intros news st m. apply process_and_send_news_members.
  - intros news st. apply process_and_send_news_delivered.
Qed.

Definition two_articles : list (article * attempt) :=
  [ (mkArticle (u "first") (u "https://x/1"),
     mkAttempt (Some Resolver.bytes_nil) (Replied 400 false) WriteDone);
    (mkArticle (u "second") (u "https://x/2"),
     mkAttempt (Some Resolver.bytes_nil) (Replied 200 true) WriteDone) ].

Lemma posted_only_after_delivery_witness :
  posted_links (process_and_send_news plain_dumps elements two_articles (mkState ∅ Absent []))
  = {[ MStr (u "https://x/2") ]}
  /\ In (u "https://x/2")
       (delivered (process_and_send_news plain_dumps elements two_articles
                     (mkState ∅ Absent []))).
Proof.
  destruct (posted_only_after_delivery plain_dumps elements) as (_ & _ & Hinv).
  split; [vm_compute; reflexivity|].
  apply (Hinv two_articles (mkState ∅ Absent [])).
  - intros url Hurl. simpl in Hurl. set_solver.
  - vm_compute. reflexivity.
Defined.

End StoreFacts.

(* ================================================================== *)
(** ** More about the sanitizer: what remains, and the table as one
       replacement *)
(* ================================================================== *)

Module SanitizerMore.

Import Sanitizer SanitizerFacts.

(** The text rewritten token by token in one pass: every maximal run of
    word characters is replaced by [mask] of it.  [acc] holds the run
    being read, last character first. *)
Fixpoint mask_scan (uni_alnum : N -> bool) (rules : list (str * str))
    (acc : str) (s : str) : str :=
  match s with
  | [] => mask rules (rev acc)
  | c :: s' =>
      if is_word uni_alnum c
      then mask_scan uni_alnum rules (c :: acc) s'
      else mask rules (rev acc) ++ c :: mask_scan uni_alnum rules [] s'
  end.

Definition mask_text (uni_alnum : N -> bool) (s : str) : str :=
  mask_scan uni_alnum replacements [] s.

Section More.

Variable uni_alnum : N -> bool.

Abbreviation is_word := (is_word uni_alnum).
Abbreviation has_match := (has_match uni_alnum).
Abbreviation match_here := (match_here uni_alnum).
Abbreviation apply_rules := (apply_rules uni_alnum).
Abbreviation sanitize_text := (sanitize_text uni_alnum).
Abbreviation all_word := (all_word uni_alnum).
Abbreviation nonword_head := (nonword_head uni_alnum).
Abbreviation stable := (stable uni_alnum).

(** *** Searching for a trigger *)

Section Search.

Variable pat : str.
Hypothesis pat_nonempty : pat <> [].
Hypothesis pat_letters : letters pat = true.

Lemma has_match_nonword prev c s :
  is_word c = false -> has_match pat prev (c :: s) = has_match pat false s.
Proof.
  intros Hc. simpl. rewrite (match_here_nonword uni_alnum) by auto. now rewrite Hc.
Qed.

Lemma has_match_nonword_head prev s :
  nonword_head s = true -> has_match pat prev s = has_match pat false s.
Proof.
  destruct s as [|c s]; [reflexivity|]. unfold SanitizerFacts.nonword_head. simpl.
  intros Hc. apply negb_true_iff in Hc.
  now rewrite !(match_here_nonword uni_alnum) by auto.
Qed.

Lemma has_match_app a b :
  nonword_head b = true ->
  forall prev, has_match pat prev (a ++ b) = has_match pat prev a || has_match pat false b.
Proof.
  intros Hb. induction a as [|c a IH]; intros prev.
  - simpl. now apply has_match_nonword_head.
  - change (has_match pat prev ((c :: a) ++ b))
      with (match_here pat prev ((c :: a) ++ b) || has_match pat (is_word c) (a ++ b)).
    rewrite (match_here_app uni_alnum) by auto. rewrite IH. simpl.
    now rewrite orb_assoc.
Qed.

Lemma has_match_inside_word w :
  all_word w = true -> has_match pat true w = false.
Proof.
  induction w as [|c w IH]; intros Hw; [reflexivity|].
  simpl in Hw. apply andb_true_iff in Hw as [Hc Hw].
  simpl. unfold Sanitizer.match_here, Sanitizer.at_word_boundary at 1. simpl.
  rewrite Hc. simpl. now apply IH.
Qed.

Lemma has_match_token w :
  all_word w = true -> has_match pat false w = ci_eq pat w.
Proof.
  intros Hw. destruct w as [|c w].
  - destruct pat; [congruence | reflexivity].
  - change (has_match pat false (c :: w))
      with (match_here pat false (c :: w) || has_match pat (is_word c) w).
    rewrite (match_here_token uni_alnum) by (auto; discriminate).
    simpl in Hw. apply andb_true_iff in Hw as [Hc Hw].
    rewrite Hc, has_match_inside_word by auto. apply orb_false_r.
Qed.

End Search.

(** *** The passes of the table as one pass *)

Lemma all_word_rev w : all_word (rev w) = all_word w.
Proof. apply forallb_rev. Qed.

Lemma apply_rules_mask_scan rules : well_formed rules ->
  Forall (fun rule => stable rules (snd rule)) rules ->
  forall s acc, all_word acc = true ->
  apply_rules rules (rev acc ++ s) = mask_scan uni_alnum rules acc s.
Proof.
  intros Hwf Hst. induction s as [|c s IH]; intros acc Hacc.
  - rewrite app_nil_r. simpl. apply (apply_rules_token uni_alnum); auto.
    now rewrite all_word_rev.
  - simpl. destruct (is_word c) eqn:Hc.
    + rewrite <- (IH (c :: acc)) by (simpl; now rewrite Hc).
      simpl. now rewrite <- app_assoc.
    + rewrite (apply_rules_app uni_alnum rules Hwf (rev acc) (c :: s))
        by (unfold SanitizerFacts.nonword_head; simpl; now rewrite Hc).
      rewrite (apply_rules_token uni_alnum rules (rev acc) Hwf Hst)
        by now rewrite all_word_rev.
      rewrite (apply_rules_nonword uni_alnum rules Hwf c s Hc).
      now rewrite <- (IH []).
Qed.

(** *** What a rule finds in the result *)

Lemma replacements_never_match :
  Forall (fun rule =>
    Forall (fun rule' => has_match (fst rule') false (snd rule) = false) replacements)
    replacements.
Proof.
  assert (H : forallb (fun rule =>
                forallb (fun rule' => negb (has_match (fst rule') false (snd rule)))
                  replacements) replacements = true) by (vm_compute; reflexivity).
  rewrite forallb_forall in H. apply Forall_forall. intros rule Hin.
  apply list_elem_of_In, H in Hin. rewrite forallb_forall in Hin.
  apply Forall_forall. intros rule' Hin'.
  apply list_elem_of_In, Hin in Hin'. now apply negb_true_iff in Hin'.
Qed.

Lemma mask_never_matches w rule' :
  all_word w = true -> In rule' replacements ->
  has_match (fst rule') false (mask replacements w) = false.
Proof.
  intros Hw Hin'.
  pose proof replacements_well_formed as Hwf. unfold well_formed in Hwf.
  rewrite Forall_forall in Hwf.
  destruct (Hwf _ (proj2 (list_elem_of_In _ _) Hin')) as [Hne Hl].
  unfold mask, rule_for.
  destruct (List.find (fun rule => ci_eq (fst rule) w) replacements) as [rule|] eqn:Hf.
  - apply find_some in Hf as [Hin _].
    pose proof replacements_never_match as Hnm. rewrite Forall_forall in Hnm.
    apply list_elem_of_In, Hnm in Hin. rewrite Forall_forall in Hin.
    now apply Hin, list_elem_of_In.
  - rewrite (has_match_token (fst rule') Hne Hl w Hw).
    apply (find_none _ _ Hf rule' Hin').
Qed.

Lemma no_trigger_left rule' : In rule' replacements ->
  forall s, has_match (fst rule') false (apply_rules replacements s) = false.
Proof.
  intros Hin'.
  pose proof replacements_well_formed as Hwf.
  assert (Hpat : fst rule' <> [] /\ letters (fst rule') = true).
  { unfold well_formed in Hwf. rewrite Forall_forall in Hwf.
    now apply Hwf, list_elem_of_In. }
  destruct Hpat as [Hne Hl].
  apply (token_ind uni_alnum).
  - now rewrite (apply_rules_nil uni_alnum).
  - intros c s Hc IH. rewrite (apply_rules_nonword uni_alnum) by auto.
    now rewrite (has_match_nonword (fst rule') Hne Hl false c _ Hc).
  - intros w rest _ Hw Hr IH.
    rewrite (apply_rules_app uni_alnum replacements Hwf w rest Hr).
    rewrite (has_match_app (fst rule') Hne Hl _ _
               (apply_rules_nonword_head uni_alnum replacements rest Hwf Hr)).
    rewrite IH, orb_false_r.
    rewrite (apply_rules_token uni_alnum replacements w Hwf (replacements_stable uni_alnum) Hw).
    now apply mask_never_matches.
Qed.

(** *** The order of the table *)

Lemma mask_permuted rules w :
  Permutation rules replacements -> mask rules w = mask replacements w.
Proof.
  intros Hperm. unfold mask at 1, rule_for.
  destruct (List.find (fun rule => ci_eq (fst rule) w) rules) as [[pat repl]|] eqn:Hf.
  - apply find_some in Hf as [Hin Hci]. simpl in Hci. simpl.
    symmetry. apply (mask_trigger pat repl w); [|exact Hci].
    eapply Permutation_in; eauto.
  - symmetry. apply mask_other. intros pat repl Hin.
    apply Permutation_sym in Hperm.
    apply (find_none _ _ Hf (pat, repl)). eapply Permutation_in; eauto.
Qed.

Lemma mask_scan_permuted rules :
  Permutation rules replacements ->
  forall s acc, mask_scan uni_alnum rules acc s = mask_scan uni_alnum replacements acc s.
Proof.
  intros Hperm. induction s as [|c s IH]; intros acc; simpl.
  - now apply mask_permuted.
  - destruct (is_word c); [apply IH|].
    now rewrite IH, (mask_permuted rules (rev acc) Hperm).
Qed.

Lemma permuted_well_formed rules :
  Permutation rules replacements ->
  well_formed rules /\ Forall (fun rule => stable rules (snd rule)) rules.
Proof.
  intros Hperm.
  pose proof replacements_well_formed as Hwf.
  pose proof (replacements_stable uni_alnum) as Hst.
  unfold well_formed, SanitizerFacts.stable in *.
  rewrite Forall_forall in Hwf. rewrite Forall_forall in Hst.
  split; apply Forall_forall; intros rule Hin.
  - apply Hwf. now rewrite <- Hperm.
  - rewrite Hperm in Hin. specialize (Hst rule Hin). now rewrite Hperm.
Qed.

End More.

(** X1.  After [sanitize_text] no trigger of the table is left as a whole
    word: searching the result for any rule's pattern finds nothing. *)
Theorem sanitized_text_has_no_trigger (uni_alnum : N -> bool) (s : str) :
  Forall (fun rule => has_match uni_alnum (fst rule) false (sanitize_text uni_alnum s) = false)
    replacements.
Proof.
  apply Forall_forall. intros rule Hin. apply list_elem_of_In in Hin.
  rewrite (sanitize_text_rules uni_alnum). now apply no_trigger_left.
Qed.

(** X2.  The 21 passes of [re.sub] amount to one pass over the text that
    replaces every maximal run of word characters by the replacement of
    the rule it triggers, and copies everything else. *)
Theorem sanitize_is_one_pass (uni_alnum : N -> bool) (s : str) :
  sanitize_text uni_alnum s = mask_text uni_alnum s.
Proof.
  rewrite (sanitize_text_rules uni_alnum). unfold mask_text.
  apply (apply_rules_mask_scan uni_alnum replacements replacements_well_formed
           (replacements_stable uni_alnum) s [] eq_refl).
Qed.

(** X3.  The order of the rules in the table does not matter: looping
    over any rearrangement of the table gives the same text. *)
Theorem sanitize_order_irrelevant (uni_alnum : N -> bool) (rules : list (str * str))
    (s : str) :
  Permutation rules replacements ->
  apply_rules uni_alnum rules s = sanitize_text uni_alnum s.
Proof.
  intros Hperm. destruct (permuted_well_formed uni_alnum rules Hperm) as [Hwf Hst].
  rewrite (sanitize_text_rules uni_alnum).
  pose proof (apply_rules_mask_scan uni_alnum rules Hwf Hst s [] eq_refl) as H1.
  pose proof (apply_rules_mask_scan uni_alnum replacements replacements_well_formed
                (replacements_stable uni_alnum) s [] eq_refl) as H2.
  change (rev [] ++ s) with s in H1, H2. rewrite H1, H2.
  now apply mask_scan_permuted.
Qed.

Lemma sanitize_order_irrelevant_witness :
  apply_rules (fun _ => false) (rev replacements) (u "Raped, killed or murdered in Gaza")
  = sanitize_text (fun _ => false) (u "Raped, killed or murdered in Gaza").
Proof.
  apply sanitize_order_irrelevant. symmetry. apply Permutation_rev.
Defined.

End SanitizerMore.

(* ================================================================== *)
(** ** More about the title layout: nothing lost, nothing empty, lines
       inside the column *)
(* ================================================================== *)

Module CompositorMore.

Import Compositor CompositorFacts.

#[local] Arguments removelast : simpl never.

(** [title_side_inset = int(max(0, margin * 1.5))], for the integer
    [margin] the source computes before. *)
Definition title_side_inset (margin : Z) : Z := Z.max 0 (3 * margin / 2).

(** [max_text_width = int(width - 2 * title_side_inset)]. *)
Definition max_text_width (width margin : Z) : Z :=
  (width - 2 * title_side_inset margin)%Z.

(** [line_x = (width - line_width) // 2]. *)
Definition line_x (width line_width : Z) : Z := ((width - line_width) / 2)%Z.

Lemma split_from_app_space a b : forall acc,
  split_from acc (a ++ 32 :: b) = split_from acc a ++ split b.
Proof.
  induction a as [|c a IH]; intros acc.
  - simpl. destruct acc; reflexivity.
  - simpl. destruct (is_space c).
    + destruct acc; rewrite IH; reflexivity.
    + apply IH.
Qed.

Lemma split_app_space a b : split (a ++ 32 :: b) = split a ++ split b.
Proof. apply split_from_app_space. Qed.

(** The line the loop tests, for a pending line that is empty or starts
    with a character of a word. *)
Lemma test_line_eq cur w :
  cur = [] \/ starts_nonspace cur = true -> token w ->
  strip (cur ++ 32 :: w) = match cur with [] => w | _ => cur ++ 32 :: w end.
Proof.
  intros Hcur Hw. destruct cur as [|c cur].
  - now apply strip_first_word.
  - apply strip_next_word; auto. destruct Hcur as [Hcur|Hcur]; [discriminate | exact Hcur].
Qed.

Lemma test_line_starts cur w :
  cur = [] \/ starts_nonspace cur = true -> token w ->
  starts_nonspace (match cur with [] => w | _ => cur ++ 32 :: w end) = true.
Proof.
  intros Hcur Hw. destruct cur as [|c cur].
  - rewrite <- (app_nil_r w). now apply token_starts.
  - destruct Hcur as [Hcur|Hcur]; [discriminate | exact Hcur].
Qed.

Lemma test_line_words cur w :
  token w ->
  split (match cur with [] => w | _ => cur ++ 32 :: w end) = split cur ++ [w].
Proof.
  intros Hw. destruct cur as [|c cur].
  - now rewrite split_token.
  - now rewrite split_app_space, (split_token w Hw).
Qed.

Section Wrap.

Variable text_width : str -> Z.
Variable max_width : Z.
Variable words : list str.
Hypothesis words_tokens : Forall token words.

Abbreviation fits := (fits text_width max_width).
Abbreviation hard_cut := (hard_cut text_width max_width).
Abbreviation loop_body := (loop_body text_width max_width).
Abbreviation while_loop := (while_loop text_width max_width).
Abbreviation ellipsize := (ellipsize text_width max_width).
Abbreviation wrap_words := (wrap_words text_width max_width).
Abbreviation words_left := (words_left text_width max_width).
Abbreviation layout_words := (layout_words text_width max_width).
Abbreviation loop_exit := (loop_exit text_width max_width words).

Lemma nth_token i : (i < length words)%nat -> token (nth i words []).
Proof.
  intros Hi. rewrite Forall_forall in words_tokens.
  apply words_tokens, list_elem_of_In. now apply nth_In.
Qed.

(** The pending line is empty or starts with a word; no line is empty;
    once a word has been read something is held; a full page holds no
    pending line. *)
Definition held (st : wrap_state) : Prop :=
  (current_line st = [] \/ starts_nonspace (current_line st) = true)
  /\ Forall (fun line => line <> []) (lines st)
  /\ (word_index st = 0%nat \/ lines st <> [] \/ current_line st <> [])
  /\ (length (lines st) = max_lines -> current_line st = []).

Lemma loop_body_held st :
  loop_cond words st = true -> held st -> held (loop_body words st).
Proof.
  unfold loop_cond, held, Compositor.loop_body, max_lines.
  intros Hc (Hcur & Hlines & _ & _).
  apply andb_true_iff in Hc as [Hidx Hlen]. apply Nat.ltb_lt in Hidx, Hlen.
  pose proof (nth_token _ Hidx) as Hw.
  rewrite (test_line_eq _ _ Hcur Hw).
  pose proof (test_line_starts _ _ Hcur Hw) as Hstart.
  destruct (fits (match current_line st with
                  | [] => nth (word_index st) words []
                  | _ :: _ => current_line st ++ 32 :: nth (word_index st) words []
                  end)) eqn:Hfit; simpl.
  - repeat split; auto; [|lia].
    right. right. intros Heq. rewrite Heq in Hstart. discriminate.
  - destruct (current_line st) as [|c line] eqn:Hline; simpl.
    + repeat split; auto.
      * apply Forall_app. split; [exact Hlines|]. constructor; [|constructor].
        apply (hard_cut_spec text_width max_width). now destruct Hw.
      * right. left. now destruct (lines st).
    + repeat split; auto.
      * apply Forall_app. split; [exact Hlines|]. constructor; [discriminate | constructor].
      * right. left. now destruct (lines st).
Qed.

Lemma while_loop_held fuel : forall st, held st -> held (while_loop fuel words st).
Proof.
  induction fuel as [|fuel IH]; intros st Hst; [exact Hst|].
  rewrite (while_loop_S text_width max_width).
  destruct (loop_cond words st) eqn:Hc; [|exact Hst].
  apply IH. now apply loop_body_held.
Qed.

Lemma loop_exit_held : held loop_exit.
Proof.
  apply while_loop_held. unfold held. simpl.
  repeat split; auto; unfold max_lines; discriminate.
Qed.

Lemma wrap_words_nonempty_lines :
  Forall (fun line => line <> []) (lines (wrap_words words)).
Proof.
  destruct loop_exit_held as (_ & Hlines & _ & _).
  unfold Compositor.wrap_words. fold loop_exit.
  destruct (current_line loop_exit) as [|c line]; [exact Hlines|].
  destruct (length (lines loop_exit) <? max_lines)%nat; [|exact Hlines].
  simpl. apply Forall_app. split; [exact Hlines|]. constructor; [discriminate | constructor].
Qed.

Lemma wrap_words_some_line : words <> [] -> lines (wrap_words words) <> [].
Proof.
  intros Hne. destruct loop_exit_held as (_ & _ & Hsome & _).
  pose proof (loop_exit_cond text_width max_width words) as Hc.
  unfold Compositor.wrap_words. fold loop_exit. fold loop_exit in Hc.
  unfold loop_cond, max_lines in Hc.
  destruct (current_line loop_exit) as [|c line] eqn:Hline.
  - destruct Hsome as [Hidx|[Hl|Hl]]; [|exact Hl|congruence].
    rewrite Hidx in Hc.
    destruct words; [congruence|]. simpl in Hc.
    apply Nat.ltb_ge in Hc. intros Heq. rewrite Heq in Hc. simpl in Hc. lia.
  - destruct (length (lines loop_exit) <? max_lines)%nat eqn:Hlen.
    + simpl. now destruct (lines loop_exit).
    + apply Nat.ltb_ge in Hlen. unfold max_lines in Hlen.
      intros Heq. rewrite Heq in Hlen. simpl in Hlen. lia.
Qed.

Lemma layout_words_nonempty_lines :
  Forall (fun line => line <> []) (layout_words words).
Proof.
  pose proof wrap_words_nonempty_lines as Hl. unfold Compositor.layout_words.
  destruct (words_left words); [|exact Hl].
  destruct (rev (lines (wrap_words words))) as [|last before] eqn:Hrev; [exact Hl|].
  apply (f_equal (@rev str)) in Hrev. rewrite rev_involutive in Hrev. simpl in Hrev.
  rewrite Hrev in Hl. apply Forall_app in Hl as [Hbefore _].
  apply Forall_app. split; [exact Hbefore|]. constructor; [|constructor].
  destruct (ellipsize_spec text_width max_width (length last) last (le_n _))
    as [(body & t & Hb & _) _].
  rewrite Hb. unfold ellipsis. now destruct body.
Qed.

Lemma layout_words_some_line : words <> [] -> layout_words words <> [].
Proof.
  intros Hne. pose proof (wrap_words_some_line Hne) as Hl.
  unfold Compositor.layout_words.
  destruct (words_left words); [|exact Hl].
  destruct (rev (lines (wrap_words words))) as [|last before]; [exact Hl|].
  now destruct (rev before).
Qed.

(** *** No word is lost *)

Hypothesis words_fit : Forall (fun w => fits w = true) words.

Definition placed (st : wrap_state) : Prop :=
  flat_map split (lines st) ++ split (current_line st) = firstn (word_index st) words.

Lemma loop_body_placed st :
  loop_cond words st = true -> held st -> placed st -> placed (loop_body words st).
Proof.
  unfold loop_cond, held, placed, Compositor.loop_body.
  intros Hc (Hcur & _) Hplaced.
  apply andb_true_iff in Hc as [Hidx _]. apply Nat.ltb_lt in Hidx.
  pose proof (nth_token _ Hidx) as Hw.
  assert (Hwfit : fits (nth (word_index st) words []) = true).
  { rewrite Forall_forall in words_fit. apply words_fit, list_elem_of_In. now apply nth_In. }
  rewrite (test_line_eq _ _ Hcur Hw).
  destruct (fits (match current_line st with
                  | [] => nth (word_index st) words []
                  | _ :: _ => current_line st ++ 32 :: nth (word_index st) words []
                  end)) eqn:Hfit; simpl.
  - rewrite (test_line_words _ _ Hw), app_assoc, Hplaced.
    destruct (lookup_lt_is_Some_2 words (word_index st) Hidx) as [w Hlook].
    rewrite (take_S_r words _ w Hlook).
    now rewrite (nth_lookup_Some _ _ [] _ Hlook).
  - destruct (current_line st) as [|c line] eqn:Hline; simpl.
    + congruence.
    + rewrite flat_map_app. simpl. rewrite !app_nil_r. exact Hplaced.
Qed.

Lemma while_loop_placed fuel : forall st,
  held st -> placed st -> placed (while_loop fuel words st).
Proof.
  induction fuel as [|fuel IH]; intros st Hh Hp; [exact Hp|].
  rewrite (while_loop_S text_width max_width).
  destruct (loop_cond words st) eqn:Hc; [|exact Hp].
  apply IH; [now apply loop_body_held | now apply loop_body_placed].
Qed.

Lemma layout_words_keeps_words :
  words_left words = false -> flat_map split (layout_words words) = words.
Proof.
  intros Hleft. unfold Compositor.layout_words. rewrite Hleft.
  assert (Hp : placed loop_exit).
  { apply while_loop_placed; [|reflexivity].
    unfold held. simpl. repeat split; auto; unfold max_lines; discriminate. }
  destruct loop_exit_held as (_ & _ & _ & Hfull).
  pose proof (loop_exit_lines text_width max_width words) as Hle.
  unfold Compositor.words_left in Hleft.
  rewrite (wrap_words_index text_width max_width) in Hleft. fold loop_exit in Hleft, Hle.
  apply Nat.ltb_ge in Hleft.
  unfold placed in Hp. rewrite firstn_all2 in Hp by exact Hleft.
  unfold Compositor.wrap_words. fold loop_exit.
  destruct (current_line loop_exit) as [|c line] eqn:Hline.
  - now rewrite app_nil_r in Hp.
  - destruct (length (lines loop_exit) <? max_lines)%nat eqn:Hlen.
    + simpl. rewrite flat_map_app. simpl. now rewrite app_nil_r.
    + apply Nat.ltb_ge in Hlen. assert (Heq : length (lines loop_exit) = max_lines) by lia.
      apply Hfull in Heq. discriminate.
Qed.

End Wrap.

(** X4.  No line that is drawn is empty, and a title with at least one
    word draws at least one line, whatever the metric and the column. *)
Theorem wrap_title_draws_something (text_width : str -> Z) (max_width : Z) (title : str) :
  Forall (fun line => line <> []) (wrap_title text_width max_width title)
  /\ (split title <> [] -> wrap_title text_width max_width title <> []).
Proof.
  unfold Compositor.wrap_title. split.
  - apply layout_words_nonempty_lines, split_tokens.
  - apply layout_words_some_line, split_tokens.
Qed.

Lemma wrap_title_draws_something_witness :
  wrap_title ten_per_char 5 (u " x ") <> [].
Proof.
  destruct (wrap_title_draws_something ten_per_char 5 (u " x ")) as [_ Hsome].
  apply Hsome. vm_compute. discriminate.
Defined.

(** X5.  When every word of the title fits the column on its own and no
    word is left over after the third line, the lines hold exactly the
    words of the title, in their order: nothing is dropped, cut or
    repeated. *)
Theorem wrap_title_keeps_the_words (text_width : str -> Z) (max_width : Z) (title : str) :
  Forall (fun w => fits text_width max_width w = true) (split title) ->
  words_left text_width max_width (split title) = false ->
  flat_map split (wrap_title text_width max_width title) = split title.
Proof.
  intros Hfit Hleft. unfold Compositor.wrap_title.
  apply layout_words_keeps_words; auto using split_tokens.
Qed.

Lemma wrap_title_keeps_the_words_witness :
  flat_map split (wrap_title ten_per_char 100 (u "the quick  brown fox jumps"))
  = split (u "the quick  brown fox jumps").
Proof.
  apply wrap_title_keeps_the_words.
  - vm_compute. repeat constructor.
  - reflexivity.
Defined.

(** X6.  A line that fits the text column is drawn inside it: its left
    edge is at least the side inset, its right edge at most the canvas
    width less the inset, and it is centred up to one pixel. *)
Theorem fitting_line_stays_in_column (text_width : str -> Z) (width margin : Z) (line : str) :
  fits text_width (max_text_width width margin) line = true ->
  let x := line_x width (text_width line) in
  (title_side_inset margin <= x
   /\ x + text_width line <= width - title_side_inset margin
   /\ 0 <= (width - (x + text_width line)) - x <= 1)%Z.
Proof.
  unfold Compositor.fits, max_text_width, line_x. intros Hfit. cbv zeta.
  apply Z.leb_le in Hfit.
  generalize dependent (title_side_inset margin). intros inset Hfit.
  generalize dependent (text_width line). intros lw Hfit.
  Z.to_euclidean_division_equations. lia.
Qed.

Lemma fitting_line_stays_in_column_witness :
  (title_side_inset 24 <= line_x 900 (ten_per_char (u "Dhaka floods"))
   /\ line_x 900 (ten_per_char (u "Dhaka floods")) + ten_per_char (u "Dhaka floods")
      <= 900 - title_side_inset 24
   /\ 0 <= (900 - (line_x 900 (ten_per_char (u "Dhaka floods"))
                   + ten_per_char (u "Dhaka floods")))
           - line_x 900 (ten_per_char (u "Dhaka floods")) <= 1)%Z.
Proof.
  apply (fitting_line_stays_in_column ten_per_char 900 24 (u "Dhaka floods")).
  reflexivity.
Defined.

End CompositorMore.

(* ================================================================== *)
(** ** More about the resolver: what it downloads, what it returns, how
       far it goes *)
(* ================================================================== *)

Module ResolverMore.

Import Resolver ResolverFacts.

(** The pages rendered along a trace. *)
Fixpoint renders (t : list event) : nat :=
  match t with
  | [] => 0
  | Rendered _ :: t' => S (renders t')
  | _ :: t' => renders t'
  end.

Lemma renders_app t t' : renders (t ++ t') = (renders t + renders t')%nat.
Proof.
  induction t as [|e t IH]; [reflexivity|].
  destruct e; simpl; rewrite IH; reflexivity.
Qed.

Lemma in_skipn_in {A} (l : list A) : forall n y, In y (skipn n l) -> In y l.
Proof.
  induction l as [|a l IH]; intros [|n] y Hy; simpl in *; auto.
  right. eapply IH; eauto.
Qed.

Lemma strongly_sorted_split {A} (R : A -> A -> Prop) (l : list A) (n : nat) :
  StronglySorted R l ->
  forall x y, In x (firstn n l) -> In y (skipn n l) -> R x y.
Proof.
  intros Hs. revert n. induction Hs as [|a l Hl IH Ha]; intros n x y Hx Hy.
  - now destruct n.
  - destruct n as [|n]; [destruct Hx|]. simpl in Hx, Hy.
    destruct Hx as [<-|Hx].
    + rewrite Forall_forall in Ha. apply Ha, list_elem_of_In.
      eapply in_skipn_in; eauto.
    + eapply IH; eauto.
Qed.

Section Traces.

Variable str_lower : str -> str.
Variable urljoin : str -> str -> option str.
Variable http_get : str -> fetched.
Variable image_size : bytes -> option (Z * Z).
Variable render : str -> option soup.
Variable json_loads : str -> option json.

Abbreviation validate := (download_and_validate_image http_get image_size).
Abbreviation is_probably_logo := (is_probably_logo str_lower).
Abbreviation usable := (usable str_lower).
Abbreviation make_absolute := (make_absolute urljoin).
Abbreviation try_each := (try_each http_get image_size).
Abbreviation try_ld := (try_ld http_get image_size).
Abbreviation meta_candidate := (meta_candidate str_lower urljoin).
Abbreviation meta_candidates := (meta_candidates str_lower urljoin).
Abbreviation ld_of_object := (ld_of_object str_lower urljoin).
Abbreviation ld_of_script := (ld_of_script str_lower urljoin json_loads).
Abbreviation collect := (collect str_lower urljoin).
Abbreviation follow_parent := (follow_parent str_lower urljoin http_get image_size render).
Abbreviation try_inline := (try_inline str_lower urljoin http_get image_size render).
Abbreviation meta_stage := (meta_stage str_lower urljoin http_get image_size).
Abbreviation jsonld_stage := (jsonld_stage str_lower urljoin http_get image_size json_loads).
Abbreviation inline_stage := (inline_stage str_lower urljoin http_get image_size render).
Abbreviation fetch_article_image :=
  (fetch_article_image str_lower urljoin http_get image_size render json_loads).

(** A URL the resolver may download: not empty and not logo-like. *)
Definition clean (url : str) : Prop := url <> [] /\ is_probably_logo url = false.

Definition clean_event (e : event) : Prop :=
  match e with Validated url => clean url | _ => True end.

(** The trace only downloads clean URLs, and an image in the result was
    accepted by the validator for a URL of the trace. *)
Definition sound (r : option bytes) (t : list event) : Prop :=
  Forall clean_event t
  /\ forall img, r = Some img -> exists url, In (Validated url) t /\ validate url = Some img.

Lemma usable_clean o url : usable o = Some url -> clean url.
Proof.
  unfold Resolver.usable. destruct o as [[|c m]|]; try discriminate.
  destruct (is_probably_logo (c :: m)) eqn:Hlogo; [discriminate|].
  intros [= <-]. split; [discriminate | exact Hlogo].
Qed.

Lemma validate_accepts url img :
  validate url = Some img ->
  http_get url = Fetched 200 img
  /\ exists w h, image_size img = Some (w, h) /\ (400 <= w)%Z /\ (250 <= h)%Z.
Proof.
  unfold download_and_validate_image.
  destruct (http_get url) as [|status content]; [discriminate|].
  destruct (status =? 200)%Z eqn:Hs; simpl; [|discriminate].
  apply Z.eqb_eq in Hs. subst status.
  destruct (image_size content) as [[w h]|] eqn:Hsize; [|discriminate].
  destruct (w <? 400)%Z eqn:Hw; [discriminate|].
  destruct (h <? 250)%Z eqn:Hh; [discriminate|]. simpl.
  intros [= <-]. apply Z.ltb_ge in Hw, Hh. split; [reflexivity|]. eauto.
Qed.

Lemma try_each_sound urls :
  Forall clean urls -> sound (fst (try_each urls)) (snd (try_each urls)).
Proof.
  induction 1 as [|url urls Hu _ IH]; simpl.
  - split; [constructor | discriminate].
  - destruct (validate url) as [img|] eqn:Hv; simpl.
    + split; [constructor; [exact Hu | constructor]|].
      intros img' [= <-]. exists url. simpl. auto.
    + destruct (try_each urls) as [r t]. simpl in *. destruct IH as [Ht Hr].
      split; [constructor; [exact Hu | exact Ht]|].
      intros img Himg. destruct (Hr img Himg) as (url' & Hin & Hok).
      exists url'. simpl. auto.
Qed.

Lemma try_each_renders urls : renders (snd (try_each urls)) = 0%nat.
Proof.
  induction urls as [|url urls IH]; [reflexivity|]. simpl.
  destruct (validate url); [reflexivity|].
  destruct (try_each urls) as [r t]. exact IH.
Qed.

Lemma meta_candidate_clean base page prop url :
  meta_candidate base page prop = Some url -> clean url.
Proof.
  unfold Resolver.meta_candidate.
  destruct (find_tag page (u "meta") (fst prop) (snd prop)); [|discriminate].
  destruct (nonempty _); [|discriminate]. apply usable_clean.
Qed.

Lemma meta_candidates_clean article_url page :
  Forall clean (meta_candidates article_url page).
Proof.
  unfold Resolver.meta_candidates. apply Forall_forall. intros url Hin.
  apply list_elem_of_omap in Hin as (prop & _ & Hc).
  eapply meta_candidate_clean; eauto.
Qed.

Definition clean_ld (c : ld_candidate) : Prop :=
  match c with LdUrl url => clean url | LdRaise => True end.

Lemma ld_of_object_clean article_url obj : Forall clean_ld (ld_of_object article_url obj).
Proof.
  unfold Resolver.ld_of_object. destruct obj; try constructor.
  destruct (match obj_get fields (u "image") with
            | Some (JStr s) => Some (JStr s)
            | Some (JArr (first :: _)) => Some first
            | Some (JObj image) => obj_get image (u "url")
            | _ => None
            end) as [v|]; [|constructor].
  destruct v as [|b|n|s|items|image]; cbv beta iota.
  - constructor.
  - destruct (truthy (JBool b)); repeat constructor.
  - destruct (truthy (JNum n)); repeat constructor.
  - destruct (usable (make_absolute article_url (Some s))) as [url|] eqn:Hu;
      [|constructor].
    constructor; [|constructor]. eapply usable_clean; eauto.
  - destruct (truthy (JArr items)); repeat constructor.
  - destruct (truthy (JObj image)); repeat constructor.
Qed.

Lemma ld_of_script_clean article_url script :
  Forall clean_ld (ld_of_script article_url script).
Proof.
  unfold Resolver.ld_of_script.
  destruct (json_loads _) as [v|]; [|constructor].
  destruct v; try constructor.
  - apply Forall_flat_map, Forall_forall. intros obj _. apply ld_of_object_clean.
  - apply ld_of_object_clean.
Qed.

(** The JSON-LD loop, with its outcome read as a result. *)
Definition found (o : outcome) : option bytes :=
  match o with Found img => Some img | _ => None end.

Lemma try_ld_sound cs :
  Forall clean_ld cs -> sound (found (fst (try_ld cs))) (snd (try_ld cs)).
Proof.
  induction 1 as [|c cs Hc _ IH]; simpl.
  - split; [constructor | discriminate].
  - destruct c as [url|]; simpl; [|split; [constructor | discriminate]].
    destruct (validate url) as [img|] eqn:Hv; simpl.
    + split; [constructor; [exact Hc | constructor]|].
      intros img' [= <-]. exists url. simpl. auto.
    + destruct (try_ld cs) as [r t]. simpl in *. destruct IH as [Ht Hr].
      split; [constructor; [exact Hc | exact Ht]|].
      intros img Himg. destruct (Hr img Himg) as (url' & Hin & Hok).
      exists url'. simpl. auto.
Qed.

Lemma try_ld_renders cs : renders (snd (try_ld cs)) = 0%nat.
Proof.
  induction cs as [|c cs IH]; [reflexivity|]. simpl.
  destruct c as [url|]; [|reflexivity].
  destruct (validate url); [reflexivity|].
  destruct (try_ld cs) as [r t]. exact IH.
Qed.

Lemma collect_clean article_url imgs cs :
  collect article_url imgs = Some cs -> Forall (fun c => clean (url_abs c)) cs.
Proof.
  revert cs. induction imgs as [|img imgs IH]; intros cs H; cbn [Resolver.collect] in H.
  - injection H as <-. constructor.
  - destruct (candidate_src (node_tag img)) as [| |src]; [now apply IH | discriminate |].
    destruct (usable (make_absolute article_url (Some src))) as [url|] eqn:Hu;
      [|now apply IH].
    destruct (collect article_url imgs) as [cs'|]; [|discriminate].
    injection H as <-. constructor; [|now apply IH].
    simpl. eapply usable_clean; eauto.
Qed.

Lemma follow_parent_sound article_url img :
  sound (fst (follow_parent article_url img)) (snd (follow_parent article_url img))
  /\ (renders (snd (follow_parent article_url img)) <= 1)%nat.
Proof.
  assert (Hnone : sound None [] /\ (renders [] <= 1)%nat).
  { split; [split; [constructor | discriminate] | simpl; lia]. }
  unfold Resolver.follow_parent.
  destruct (parent img) as [p|]; [|exact Hnone].
  destruct (str_eqb (tag_name p) (u "a") && nonempty (get (tag_attrs p) (u "href")));
    [|exact Hnone].
  destruct (make_absolute article_url (get (tag_attrs p) (u "href"))) as [[|c h]|];
    try exact Hnone.
  destruct (str_eqb (c :: h) article_url); [exact Hnone|].
  destruct (render (c :: h)) as [inner|].
  - set (urls := option_list _ ++ option_list _).
    assert (Hclean : Forall clean urls).
    { subst urls. apply Forall_app. split.
      - destruct (meta_candidate (c :: h) inner (u "property", u "og:image")) as [url|] eqn:Hog;
          simpl; [|constructor].
        constructor; [|constructor]. eapply meta_candidate_clean; eauto.
      - destruct (List.find _ inner) as [first|]; simpl; [|constructor].
        destruct (usable _) as [url|] eqn:Hu; simpl; [|constructor].
        constructor; [|constructor]. eapply usable_clean; eauto. }
    pose proof (try_each_sound urls Hclean) as [Ht Hr].
    pose proof (try_each_renders urls) as Hn.
    destruct (try_each urls) as [r t]. simpl in *.
    split; [split|lia].
    + constructor; [exact I | exact Ht].
    + intros img' Himg. destruct (Hr img' Himg) as (url & Hin & Hok).
      exists url. simpl. auto.
  - simpl. split; [split; [repeat constructor | discriminate] | lia].
Qed.

Lemma try_inline_sound article_url cs :
  Forall (fun c => clean (url_abs c)) cs ->
  sound (fst (try_inline article_url cs)) (snd (try_inline article_url cs))
  /\ (renders (snd (try_inline article_url cs)) <= length cs)%nat.
Proof.
  induction 1 as [|c cs Hc _ IH]; simpl.
  - split; [split; [constructor | discriminate] | lia].
  - destruct (validate (url_abs c)) as [img|] eqn:Hv; simpl.
    + split; [split; [constructor; [exact Hc | constructor]|] | lia].
      intros img' [= <-]. exists (url_abs c). simpl. auto.
    + destruct (follow_parent_sound article_url (img_tag c)) as [[Hft Hfr] Hfn].
      destruct (follow_parent article_url (img_tag c)) as [r t]. simpl in *.
      destruct r as [img2|]; simpl.
      * split; [split; [constructor; [exact Hc | exact Hft]|] | lia].
        intros img' [= <-]. destruct (Hfr img2 eq_refl) as (url & Hin & Hok).
        exists url. simpl. auto.
      * destruct IH as [[Ht Hr] Hn].
        destruct (try_inline article_url cs) as [r' t']. simpl in *.
        rewrite renders_app.
        split; [split; [constructor; [exact Hc | apply Forall_app; auto]|] | lia].
        intros img' Himg. destruct (Hr img' Himg) as (url & Hin & Hok).
        exists url. split; [|exact Hok]. right. apply in_or_app. auto.
Qed.

Lemma inline_stage_sound article_url page :
  sound (found (fst (inline_stage article_url page))) (snd (inline_stage article_url page))
  /\ (renders (snd (inline_stage article_url page)) <= 8)%nat.
Proof.
  unfold Resolver.inline_stage.
  destruct (collect article_url (find_all page (u "img"))) as [cs|] eqn:Hcs; simpl.
  - assert (Hclean : Forall (fun c => clean (url_abs c)) (firstn 8 (sort_desc cs))).
    { apply Forall_take. apply collect_clean in Hcs.
      rewrite Forall_forall in Hcs. apply Forall_forall. intros c Hc.
      apply Hcs. now rewrite <- (sort_desc_perm cs). }
    destruct (try_inline_sound article_url _ Hclean) as [[Ht Hr] Hn].
    pose proof (firstn_le_length 8 (sort_desc cs)) as Hlen.
    destruct (try_inline article_url (firstn 8 (sort_desc cs))) as [r t]. simpl in *.
    split; [split; [exact Ht|] | lia].
    intros img Himg. apply Hr. now destruct r.
  - split; [split; [constructor | discriminate] | lia].
Qed.

Lemma sound_app r t t' :
  Forall clean_event t -> sound r t' -> sound r (t ++ t').
Proof.
  intros Ht [Ht' Hr]. split; [apply Forall_app; auto|].
  intros img Himg. destruct (Hr img Himg) as (url & Hin & Hok).
  exists url. split; [apply in_or_app; auto | exact Hok].
Qed.

Lemma fetch_article_image_sound article_url :
  sound (fst (fetch_article_image article_url)) (snd (fetch_article_image article_url))
  /\ (renders (snd (fetch_article_image article_url)) <= 9)%nat.
Proof.
  unfold Resolver.fetch_article_image.
  destruct (render article_url) as [page|];
    [|simpl; split; [split; [repeat constructor | discriminate] | lia]].
  unfold Resolver.meta_stage, Resolver.jsonld_stage.
  pose proof (try_each_sound _ (meta_candidates_clean article_url page)) as Hm.
  pose proof (try_each_renders (meta_candidates article_url page)) as Hmn.
  destruct (try_each (meta_candidates article_url page)) as [r1 t1]. simpl in Hm, Hmn.
  assert (Hhead : Forall clean_event (Rendered article_url :: Entered MetaStage :: t1)).
  { repeat constructor. apply Hm. }
  assert (Hheadn : renders (Rendered article_url :: Entered MetaStage :: t1) = 1%nat).
  { simpl. now rewrite Hmn. }
  destruct r1 as [img|].
  - simpl. split; [|lia]. apply (sound_app _ [Rendered article_url; Entered MetaStage]);
      [repeat constructor | exact Hm].
  - set (lds := flat_map (ld_of_script article_url) (List.filter is_ld_script page)).
    assert (Hlds : Forall clean_ld lds).
    { subst lds. apply Forall_flat_map, Forall_forall. intros s _. apply ld_of_script_clean. }
    pose proof (try_ld_sound lds Hlds) as Hl.
    pose proof (try_ld_renders lds) as Hln.
    destruct (try_ld lds) as [r2 t2]. simpl in Hl, Hln.
    assert (Hmid : Forall clean_event
                     ((Rendered article_url :: Entered MetaStage :: t1)
                      ++ Entered JsonLdStage :: t2)).
    { apply Forall_app. split; [exact Hhead|]. constructor; [exact I | apply Hl]. }
    assert (Hmidn : renders ((Rendered article_url :: Entered MetaStage :: t1)
                             ++ Entered JsonLdStage :: t2) = 1%nat).
    { rewrite renders_app, Hheadn. simpl. now rewrite Hln. }
    destruct r2 as [img| |].
    + simpl fst. simpl snd. split; [|apply (Nat.le_trans _ 1); [apply Nat.eq_le_incl; exact Hmidn | lia]].
      apply (sound_app _ (Rendered article_url :: Entered MetaStage :: t1)
               (Entered JsonLdStage :: t2)); [exact Hhead|].
      apply (sound_app _ [Entered JsonLdStage]); [repeat constructor | exact Hl].
    + destruct (inline_stage_sound article_url page) as [Hi Hin].
      destruct (inline_stage article_url page) as [r3 t3]. simpl in Hi, Hin.
      assert (Hall : sound (found r3)
                       (((Rendered article_url :: Entered MetaStage :: t1)
                         ++ Entered JsonLdStage :: t2) ++ Entered InlineStage :: t3)).
      { apply sound_app; [exact Hmid|].
        apply (sound_app _ [Entered InlineStage]); [repeat constructor | exact Hi]. }
      assert (Halln : (renders (((Rendered article_url :: Entered MetaStage :: t1)
                         ++ Entered JsonLdStage :: t2) ++ Entered InlineStage :: t3) <= 9)%nat).
      { rewrite renders_app, Hmidn. simpl. lia. }
      destruct r3; simpl fst; simpl snd; (split; [exact Hall | exact Halln]).
    + simpl fst. simpl snd. split; [|apply (Nat.le_trans _ 1); [apply Nat.eq_le_incl; exact Hmidn | lia]].
      split; [exact Hmid | discriminate].
Qed.

(** *** The JSON-LD loop *)

Lemma try_ld_accepts pre url img post :
  Forall (fun url => validate url = None) pre ->
  validate url = Some img ->
  try_ld (map LdUrl pre ++ LdUrl url :: post) = (Found img, map Validated (pre ++ [url])).
Proof.
  induction 1 as [|url' pre Hu _ IH]; intros Hok; simpl.
  - now rewrite Hok.
  - now rewrite Hu, IH.
Qed.

Lemma try_ld_raises pre post :
  Forall (fun url => validate url = None) pre ->
  try_ld (map LdUrl pre ++ LdRaise :: post) = (Raised, map Validated pre).
Proof.
  induction 1 as [|url' pre Hu _ IH]; simpl; [reflexivity|].
  now rewrite Hu, IH.
Qed.

End Traces.

(** X7.  Whatever the page holds, every URL the resolver downloads is
    non-empty and not logo-like: the logo filter stands before each call
    of the validator, in all three stages and behind a followed link. *)
Theorem resolver_downloads_no_logo (str_lower : str -> str)
    (urljoin : str -> str -> option str) (http_get : str -> fetched)
    (image_size : bytes -> option (Z * Z)) (render : str -> option soup)
    (json_loads : str -> option json) (article_url : str) :
  Forall (clean_event str_lower)
    (snd (fetch_article_image str_lower urljoin http_get image_size render json_loads
            article_url)).
Proof. apply fetch_article_image_sound. Qed.

(** X8.  An image the resolver returns is the body of a download with
    status 200 that it made for one of its candidates, and it decodes to
    at least 400 by 250 pixels: no stage returns an image the validator
    did not accept. *)
Theorem resolver_result_meets_floor (str_lower : str -> str)
    (urljoin : str -> str -> option str) (http_get : str -> fetched)
    (image_size : bytes -> option (Z * Z)) (render : str -> option soup)
    (json_loads : str -> option json) (article_url : str) (img : bytes) :
  fst (fetch_article_image str_lower urljoin http_get image_size render json_loads
         article_url) = Some img ->
  exists url w h,
    In (Validated url)
       (snd (fetch_article_image str_lower urljoin http_get image_size render json_loads
               article_url))
    /\ http_get url = Fetched 200 img
    /\ image_size img = Some (w, h) /\ (400 <= w)%Z /\ (250 <= h)%Z.
Proof.
  intros Himg.
  destruct (fetch_article_image_sound str_lower urljoin http_get image_size render
              json_loads article_url) as [[_ Hr] _].
  destruct (Hr img Himg) as (url & Hin & Hok).
  destruct (validate_accepts http_get image_size url img Hok) as (Hget & w & h & Hsize & Hw & Hh).
  exists url, w, h. auto.
Qed.

Lemma resolver_result_meets_floor_witness :
  exists url w h,
    In (Validated url)
       (snd (fetch_article_image (map ascii_lower) keep_url (serve_all 200) (sized 800 600)
               (fun _ => Some page_with_both) (fun _ => None) (u "https://x/story")))
    /\ serve_all 200 url = Fetched 200 any_image
    /\ sized 800 600 any_image = Some (w, h) /\ (400 <= w)%Z /\ (250 <= h)%Z.
Proof.
  apply (resolver_result_meets_floor (map ascii_lower) keep_url (serve_all 200)
           (sized 800 600) (fun _ => Some page_with_both) (fun _ => None)
           (u "https://x/story") any_image).
  reflexivity.
Defined.

(** X9.  For one article the resolver renders at most nine pages: the
    article page, and at most one linked page for each of the at most
    eight inline candidates it tries (one hop, never a second). *)
Theorem resolver_renders_at_most_nine (str_lower : str -> str)
    (urljoin : str -> str -> option str) (http_get : str -> fetched)
    (image_size : bytes -> option (Z * Z)) (render : str -> option soup)
    (json_loads : str -> option json) (article_url : str) :
  (renders (snd (fetch_article_image str_lower urljoin http_get image_size render
                   json_loads article_url)) <= 9)%nat.
Proof. apply fetch_article_image_sound. Qed.

(** X10.  When the meta-tag stage finds nothing the validator accepts and
    a JSON-LD candidate is accepted, the resolver returns the image of
    the first accepted JSON-LD candidate and does not enter the inline
    stage. *)
Theorem jsonld_stage_wins (str_lower : str -> str) (urljoin : str -> str -> option str)
    (http_get : str -> fetched) (image_size : bytes -> option (Z * Z))
    (render : str -> option soup) (json_loads : str -> option json)
    (article_url : str) (page : soup) (pre : list str) (url : str) (img : bytes)
    (post : list ld_candidate) :
  render article_url = Some page ->
  Forall (fun url => download_and_validate_image http_get image_size url = None)
    (meta_candidates str_lower urljoin article_url page) ->
  flat_map (ld_of_script str_lower urljoin json_loads article_url)
    (List.filter is_ld_script page) = map LdUrl pre ++ LdUrl url :: post ->
  Forall (fun url => download_and_validate_image http_get image_size url = None) pre ->
  download_and_validate_image http_get image_size url = Some img ->
  fetch_article_image str_lower urljoin http_get image_size render json_loads article_url
  = (Some img,
     (Rendered article_url :: Entered MetaStage
        :: map Validated (meta_candidates str_lower urljoin article_url page))
     ++ Entered JsonLdStage :: map Validated (pre ++ [url])).
Proof.
  intros Hpage Hmeta Hld Hpre Hok.
  unfold fetch_article_image, meta_stage, jsonld_stage.
  rewrite Hpage, (try_each_rejected http_get image_size _ Hmeta), Hld.
  now rewrite (try_ld_accepts http_get image_size pre url img post Hpre Hok).
Qed.

(** A page whose only image source is a JSON-LD block, beside an inline
    image. *)
Definition page_with_ld : soup :=
  [ mkNode (mkTag (u "script") [(u "type", u "application/ld+json")] [] (u "ld"))
           [mkTag (u "head") [] [] []];
    mkNode (mkTag (u "img") [(u "src", u "https://x/inline.jpg")] [] [])
           [mkTag (u "div") [] [] []] ].

Definition ld_with_url (text : str) : option json :=
  Some (JObj [(u "image", JStr (u "https://x/ld.jpg"))]).

Definition ld_with_objects (text : str) : option json :=
  Some (JObj [(u "image", JArr [JObj [(u "url", JStr (u "https://x/ld.jpg"))]])]).

Lemma jsonld_stage_wins_witness :
  fetch_article_image (map ascii_lower) keep_url (serve_all 200) (sized 800 600)
    (fun _ => Some page_with_ld) ld_with_url (u "https://x/story")
  = (Some any_image,
     [Rendered (u "https://x/story"); Entered MetaStage; Entered JsonLdStage;
      Validated (u "https://x/ld.jpg")]).
Proof.
  apply (jsonld_stage_wins (map ascii_lower) keep_url (serve_all 200) (sized 800 600)
           (fun _ => Some page_with_ld) ld_with_url (u "https://x/story") page_with_ld
           [] (u "https://x/ld.jpg") any_image []).
  - reflexivity.
  - vm_compute. constructor.
  - reflexivity.
  - constructor.
  - reflexivity.
Defined.

(** X11.  When the meta-tag stage finds nothing and a JSON-LD block gives
    an [image] that is neither a string nor empty (an object inside a
    list, a number), the exception it causes ends the resolver: the
    result is no image and the inline stage is not entered, whatever
    images the page holds. *)
Theorem jsonld_value_ends_resolver (str_lower : str -> str)
    (urljoin : str -> str -> option str) (http_get : str -> fetched)
    (image_size : bytes -> option (Z * Z)) (render : str -> option soup)
    (json_loads : str -> option json) (article_url : str) (page : soup)
    (pre : list str) (post : list ld_candidate) :
  render article_url = Some page ->
  Forall (fun url => download_and_validate_image http_get image_size url = None)
    (meta_candidates str_lower urljoin article_url page) ->
  flat_map (ld_of_script str_lower urljoin json_loads article_url)
    (List.filter is_ld_script page) = map LdUrl pre ++ LdRaise :: post ->
  Forall (fun url => download_and_validate_image http_get image_size url = None) pre ->
  fetch_article_image str_lower urljoin http_get image_size render json_loads article_url
  = (None,
     (Rendered article_url :: Entered MetaStage
        :: map Validated (meta_candidates str_lower urljoin article_url page))
     ++ Entered JsonLdStage :: map Validated pre).
Proof.
  intros Hpage Hmeta Hld Hpre.
  unfold fetch_article_image, meta_stage, jsonld_stage.
  rewrite Hpage, (try_each_rejected http_get image_size _ Hmeta), Hld.
  now rewrite (try_ld_raises http_get image_size pre post Hpre).
Qed.

Lemma jsonld_value_ends_resolver_witness :
  fetch_article_image (map ascii_lower) keep_url (serve_all 200) (sized 800 600)
    (fun _ => Some page_with_ld) ld_with_objects (u "https://x/story")
  = (None, [Rendered (u "https://x/story"); Entered MetaStage; Entered JsonLdStage]).
Proof.
  apply (jsonld_value_ends_resolver (map ascii_lower) keep_url (serve_all 200)
           (sized 800 600) (fun _ => Some page_with_ld) ld_with_objects
           (u "https://x/story") page_with_ld [] []).
  - reflexivity.
  - vm_compute. constructor.
  - reflexivity.
  - constructor.
Defined.

(** A page of nine images that all score 0, but for the last, which
    has a prominence class. *)
Definition nine_images : soup :=
  map (fun name =>
         mkNode (mkTag (u "img") [(u "src", u "https://x/" ++ name)]
                   (if str_eqb name (u "i.jpg") then [u "main"] else []) [])
                [mkTag (u "div") [] [] []])
    [u "a.jpg"; u "b.jpg"; u "c.jpg"; u "d.jpg"; u "e.jpg"; u "f.jpg"; u "g.jpg";
     u "h.jpg"; u "i.jpg"].

(** The candidates the loop over these images gives. *)
Definition nine_candidates : list candidate :=
  Eval vm_compute in
    match collect (map ascii_lower) keep_url (u "https://x/story")
            (find_all nine_images (u "img")) with
    | Some cs => cs
    | None => []
    end.

(** X12.  The inline stage tries at most eight of its candidates, all of
    them when there are no more than eight, and they are the best ones:
    no candidate it leaves out scores higher than one it tries. *)
Theorem inline_stage_tries_the_best (str_lower : str -> str)
    (urljoin : str -> str -> option str) (http_get : str -> fetched)
    (image_size : bytes -> option (Z * Z)) (render : str -> option soup)
    (article_url : str) (page : soup) (img_candidates : list candidate) :
  collect str_lower urljoin article_url (find_all page (u "img")) = Some img_candidates ->
  exists tried left_out,
    Permutation (tried ++ left_out) img_candidates
    /\ (length tried <= 8)%nat
    /\ (left_out <> [] -> length tried = 8%nat)
    /\ (forall c d, In c tried -> In d left_out -> (score d <= score c)%nat)
    /\ inline_stage str_lower urljoin http_get image_size render article_url page
       = (let '(r, t) := try_inline str_lower urljoin http_get image_size render
                           article_url tried in
          (match r with Some img => Found img | None => NotFound end, t)).
Proof.
  intros Hc.
  exists (firstn 8 (sort_desc img_candidates)), (skipn 8 (sort_desc img_candidates)).
  split; [rewrite firstn_skipn; apply sort_desc_perm|].
  split; [apply firstn_le_length|]. split; [|split].
  - intros Hleft. apply firstn_length_le.
    destruct (Nat.le_gt_cases 8 (length (sort_desc img_candidates))) as [Hle|Hgt];
      [exact Hle|].
    exfalso. apply Hleft. apply skipn_all2. lia.
  - intros c d Hin Hout.
    apply (strongly_sorted_split falling (sort_desc img_candidates) 8
             (sort_desc_sorted img_candidates) c d Hin Hout).
  - unfold inline_stage. now rewrite Hc.
Qed.

Lemma inline_stage_tries_the_best_witness :
  exists tried left_out,
    length tried = 8%nat
    /\ length left_out = 1%nat
    /\ (forall c d, In c tried -> In d left_out -> (score d <= score c)%nat)
    /\ inline_stage (map ascii_lower) keep_url (serve_all 404) (sized 800 600)
         (fun _ => None) (u "https://x/story") nine_images
       = (let '(r, t) := try_inline (map ascii_lower) keep_url (serve_all 404)
                           (sized 800 600) (fun _ => None) (u "https://x/story") tried in
          (match r with Some img => Found img | None => NotFound end, t)).
Proof.
  destruct (inline_stage_tries_the_best (map ascii_lower) keep_url (serve_all 404)
              (sized 800 600) (fun _ => None) (u "https://x/story") nine_images
              nine_candidates)
    as (tried & left_out & Hperm & Hle & Hfull & Hbest & Hrun).
  - vm_compute. reflexivity.
  - apply Permutation_length in Hperm. rewrite length_app in Hperm.
    change (length nine_candidates) with 9%nat in Hperm.
    assert (Hleft : left_out <> []).
    { intros ->. simpl in Hperm. lia. }
    exists tried, left_out. split; [now apply Hfull|].
    split; [rewrite (Hfull Hleft) in Hperm; lia|]. split; [exact Hbest | exact Hrun].
Defined.

End ResolverMore.

(* ================================================================== *)
(** ** More about the store and the pipeline: when loading raises, what
       a cycle posts, what a restart finds *)
(* ================================================================== *)

Module StoreMore.

Import Store StoreFacts.

(** A value [set] cannot hold: a list or a dict. *)
Definition unhashable (v : json) : bool :=
  match v with JArr _ | JObj _ => true | _ => false end.

(** A document [set] cannot be built from: a number, a boolean, [null],
    or an array with an unhashable item. *)
Definition not_a_set (v : json) : bool :=
  match v with
  | JNull | JBool _ | JNum _ => true
  | JArr items => existsb unhashable items
  | JStr _ | JObj _ => false
  end.

Lemma mapM_hashable_none items :
  mapM hashable items = None <-> existsb unhashable items = true.
Proof.
  induction items as [|v items IH]; simpl; [split; discriminate|].
  destruct v; simpl; try (destruct (mapM hashable items); simpl in *;
    [split; [discriminate | intros H; apply IH in H; discriminate]
    | split; [intros _; now apply IH | reflexivity]]);
  split; reflexivity.
Qed.

Lemma set_of_none v : set_of v = None <-> not_a_set v = true.
Proof.
  destruct v; simpl; try (split; [reflexivity | reflexivity]);
    try (split; discriminate).
  rewrite <- mapM_hashable_none.
  destruct (mapM hashable items); simpl; split; congruence.
Qed.

(** The file holds the document of the set in memory. *)
Definition synced (json_dumps : json -> str) (set_order : gset member -> list member)
    (st : state) : Prop :=
  file st = Holds (json_dumps (JArr (map to_json (set_order (posted_links st))))).

Section Cycle.

Variable json_dumps : json -> str.
Variable set_order : gset member -> list member.

Abbreviation process_article := (process_article json_dumps set_order).
Abbreviation process_and_send_news := (process_and_send_news json_dumps set_order).

Lemma process_article_skips st art env :
  MStr (link art) ∈ posted_links st -> process_article st (art, env) = st.
Proof.
  intros Hin. unfold Store.process_article. now rewrite bool_decide_eq_true_2.
Qed.

Lemma process_article_grows st a m :
  m ∈ posted_links st -> m ∈ posted_links (process_article st a).
Proof.
  destruct a as [art env]. intros Hm.
  destruct (process_article_cases json_dumps set_order st art env)
    as [Hsame|(_ & _ & Hposted & _)].
  - now rewrite Hsame.
  - rewrite Hposted. now apply elem_of_union_r.
Qed.

Lemma process_and_send_news_grows news : forall st m,
  m ∈ posted_links st -> m ∈ posted_links (process_and_send_news news st).
Proof.
  induction news as [|a news IH]; intros st m Hm; [exact Hm|].
  rewrite (process_and_send_news_cons json_dumps set_order).
  apply IH. now apply process_article_grows.
Qed.

Lemma process_article_posts st art env :
  card env <> None -> send_telegram_photo_sync (photo_reply env) = true ->
  MStr (link art) ∈ posted_links (process_article st (art, env)).
Proof.
  intros Hcard Hsend. unfold Store.process_article.
  destruct (bool_decide (MStr (link art) ∈ posted_links st)) eqn:Hin.
  - apply bool_decide_eq_true in Hin. exact Hin.
  - destruct (card env); [|congruence]. rewrite Hsend. simpl.
    apply elem_of_union_l. now apply elem_of_singleton.
Qed.

Lemma process_and_send_news_posts news : forall st art env,
  In (art, env) news ->
  card env <> None -> send_telegram_photo_sync (photo_reply env) = true ->
  MStr (link art) ∈ posted_links (process_and_send_news news st).
Proof.
  induction news as [|a news IH]; intros st art env Hin Hcard Hsend; [destruct Hin|].
  rewrite (process_and_send_news_cons json_dumps set_order).
  destruct Hin as [->|Hin].
  - apply process_and_send_news_grows. now apply process_article_posts.
  - now apply (IH _ art env).
Qed.

(** Every delivered link is in the set, and none was delivered twice. *)
Definition once (st : state) : Prop :=
  NoDup (delivered st) /\ forall url, In url (delivered st) -> MStr url ∈ posted_links st.

Lemma process_article_once st a : once st -> once (process_article st a).
Proof.
  destruct a as [art env]. intros [Hnd Hin].
  unfold Store.process_article.
  destruct (bool_decide (MStr (link art) ∈ posted_links st)) eqn:Hposted; [now split|].
  apply bool_decide_eq_false in Hposted.
  destruct (card env); [|now split].
  destruct (send_telegram_photo_sync (photo_reply env)); [|now split].
  split; simpl.
  - apply NoDup_cons. split; [|exact Hnd].
    intros Hdel. apply list_elem_of_In, Hin in Hdel. contradiction.
  - intros url [<-|Hurl].
    + apply elem_of_union_l. now apply elem_of_singleton.
    + apply elem_of_union_r. now apply Hin.
Qed.

Lemma process_and_send_news_once news : forall st,
  once st -> once (process_and_send_news news st).
Proof.
  induction news as [|a news IH]; intros st Hst; [exact Hst|].
  rewrite (process_and_send_news_cons json_dumps set_order).
  apply IH. now apply process_article_once.
Qed.

Lemma process_article_synced st a :
  save_result (snd a) = WriteDone ->
  synced json_dumps set_order st -> synced json_dumps set_order (process_article st a).
Proof.
  destruct a as [art env]. simpl. intros Hw Hs.
  unfold Store.process_article.
  destruct (bool_decide _); [exact Hs|].
  destruct (card env); [|exact Hs].
  destruct (send_telegram_photo_sync (photo_reply env)); [|exact Hs].
  unfold synced. simpl. now rewrite Hw.
Qed.

Lemma process_and_send_news_synced news : forall st,
  Forall (fun a => save_result (snd a) = WriteDone) news ->
  synced json_dumps set_order st ->
  synced json_dumps set_order (process_and_send_news news st).
Proof.
  induction news as [|a news IH]; intros st Hw Hs; [exact Hs|].
  apply Forall_cons in Hw as [Ha Hw].
  rewrite (process_and_send_news_cons json_dumps set_order).
  apply IH; [exact Hw|]. now apply process_article_synced.
Qed.

Lemma load_synced (json_loads : str -> parsed) st :
  synced json_dumps set_order st ->
  set_order (posted_links st) ≡ₚ elements (posted_links st) ->
  strip (json_dumps (JArr (map to_json (set_order (posted_links st))))) <> [] ->
  json_loads (strip (json_dumps (JArr (map to_json (set_order (posted_links st))))))
  = Parsed (JArr (map to_json (set_order (posted_links st)))) ->
  load_posted_links json_loads (file st) = Loaded (posted_links st).
Proof.
  intros Hs Horder Hne Hdoc. rewrite Hs. unfold load_posted_links.
  destruct (strip _) as [|c content] eqn:Htext; [congruence|].
  rewrite Hdoc. simpl. rewrite mapM_hashable_to_json. simpl. f_equal.
  rewrite Horder. apply list_to_set_elements_L.
Qed.

Lemma process_article_file st a :
  save_result (snd a) = WriteDone ->
  process_article st a = st \/ synced json_dumps set_order (process_article st a).
Proof.
  destruct a as [art env]. simpl. intros Hw.
  unfold Store.process_article.
  destruct (bool_decide _); [now left|].
  destruct (card env); [|now left].
  destruct (send_telegram_photo_sync (photo_reply env)); [|now left].
  right. unfold synced. simpl. now rewrite Hw.
Qed.

Lemma process_and_send_news_file news : forall st,
  Forall (fun a => save_result (snd a) = WriteDone) news ->
  process_and_send_news news st = st
  \/ synced json_dumps set_order (process_and_send_news news st).
Proof.
  induction news as [|a news IH]; intros st Hw; [now left|].
  apply Forall_cons in Hw as [Ha Hw].
  rewrite (process_and_send_news_cons json_dumps set_order).
  destruct (IH (process_article st a) Hw) as [Hsame|Hs]; [|now right].
  rewrite Hsame. now apply process_article_file.
Qed.

End Cycle.

(** The page lists one article twice, and another one. *)
Definition listed_twice : list (article * attempt) :=
  [ (mkArticle (u "flood") (u "https://x/1"),
     mkAttempt (Some Resolver.bytes_nil) (Replied 200 true) WriteDone);
    (mkArticle (u "flood") (u "https://x/1"),
     mkAttempt (Some Resolver.bytes_nil) (Replied 200 true) WriteDone);
    (mkArticle (u "vote") (u "https://x/2"),
     mkAttempt (Some Resolver.bytes_nil) (Replied 200 true) WriteDone) ].

(** X13.  [load_posted_links] raises exactly in these cases: the file
    is there but cannot be opened or decoded as text; or it has text
    other than whitespace on which [json.loads] raises an exception that
    is no [JSONDecodeError]; or that text parses to a number, a boolean,
    [null], or an array holding an array or an object, so that [set]
    raises [TypeError].  None of these is among the exceptions the
    handler catches. *)
Theorem load_raises_exactly_when (json_loads : str -> parsed) (file : disk) :
  load_posted_links json_loads file = LoadRaised
  <-> (file = Unreadable
       \/ exists text,
            file = Holds text /\ strip text <> []
            /\ (json_loads (strip text) = ParseRaised
                \/ exists v,
                     json_loads (strip text) = Parsed v
                     /\ (v = JNull \/ (exists b, v = JBool b) \/ (exists n, v = JNum n)
                         \/ exists items item,
                              v = JArr items /\ In item items
                              /\ ((exists inner, item = JArr inner)
                                  \/ (exists fields, item = JObj fields))))).
Proof.
  unfold load_posted_links. split.
  - destruct file as [| |text]; [discriminate | now left |].
    destruct (strip text) as [|c content] eqn:Htext; [discriminate|].
    intros Hraised. right. exists text. rewrite Htext.
    split; [reflexivity|]. split; [discriminate|].
    destruct (json_loads (c :: content)) as [v| |] eqn:Hv;
      [|discriminate|now left].
    destruct (set_of v) as [links|] eqn:Hset; [discriminate|].
    right. exists v. split; [reflexivity|].
    apply set_of_none in Hset.
    destruct v as [| b | n | s | items | fields]; simpl in Hset; try discriminate.
    + now left.
    + right. left. now exists b.
    + right. right. left. now exists n.
    + right. right. right. apply existsb_exists in Hset as (item & Hin & Hitem).
      exists items, item. split; [reflexivity|]. split; [exact Hin|].
      destruct item as [| | | | inner | inner]; try discriminate;
        [left | right]; now exists inner.
  - intros [->|(text & -> & Hne & Hcase)]; [reflexivity|].
    destruct (strip text) as [|c content]; [congruence|].
    destruct Hcase as [->|(v & -> & Hshape)]; [reflexivity|].
    assert (Hset : set_of v = None); [|now rewrite Hset].
    apply set_of_none.
    destruct Hshape as [->|[[b ->]|[[n ->]|(items & item & -> & Hin & Hitem)]]];
      try reflexivity.
    simpl. apply existsb_exists. exists item. split; [exact Hin|].
    destruct Hitem as [[inner ->]|[fields ->]]; reflexivity.
Qed.

(** X14.  No link is delivered twice: if the links delivered so far are
    pairwise different and all in the set, the same holds after a cycle,
    whatever the page lists and however often it lists an article. *)
Theorem no_link_delivered_twice (json_dumps : json -> str)
    (set_order : gset member -> list member) (news : list (article * attempt))
    (st : state) :
  NoDup (delivered st) ->
  (forall url, In url (delivered st) -> MStr url ∈ posted_links st) ->
  NoDup (delivered (process_and_send_news json_dumps set_order news st))
  /\ (forall url,
        In url (delivered (process_and_send_news json_dumps set_order news st)) ->
        MStr url ∈ posted_links (process_and_send_news json_dumps set_order news st)).
Proof.
  intros Hnd Hin. now apply process_and_send_news_once.
Qed.

Lemma no_link_delivered_twice_witness :
  NoDup (delivered (process_and_send_news plain_dumps elements listed_twice
                      (mkState ∅ Absent []))).
Proof.
  apply (no_link_delivered_twice plain_dumps elements listed_twice (mkState ∅ Absent [])).
  - constructor.
  - intros url [].
Defined.

(** X15.  After a cycle the set holds exactly what it held before and
    the links of the articles of the cycle whose card was made and whose
    photo Telegram accepted, whether or not the file could be written:
    nothing is forgotten and every delivery is recorded. *)
Theorem cycle_posts_exactly_the_delivered (json_dumps : json -> str)
    (set_order : gset member -> list member) (news : list (article * attempt))
    (st : state) (m : member) :
  m ∈ posted_links (process_and_send_news json_dumps set_order news st)
  <-> (m ∈ posted_links st
       \/ exists art env, In (art, env) news /\ m = MStr (link art)
                          /\ card env <> None
                          /\ send_telegram_photo_sync (photo_reply env) = true).
Proof.
  split.
  - apply process_and_send_news_members.
  - intros [Hm|(art & env & Hin & -> & Hcard & Hsend)].
    + now apply process_and_send_news_grows.
    + now apply (process_and_send_news_posts json_dumps set_order news st art env).
Qed.

(** X16.  Memory and file stay in step.  If the set in memory is what a
    load of the file gives, every write of the cycle goes through and the
    JSON library reads back the last document written, then after the
    cycle a load of the file, as a restart does it, gives exactly the set
    in memory. *)
Theorem restart_finds_the_set (json_loads : str -> parsed) (json_dumps : json -> str)
    (set_order : gset member -> list member) (news : list (article * attempt))
    (st : state) :
  let st' := process_and_send_news json_dumps set_order news st in
  let document := JArr (map to_json (set_order (posted_links st'))) in
  load_posted_links json_loads (file st) = Loaded (posted_links st) ->
  Forall (fun a => save_result (snd a) = WriteDone) news ->
  set_order (posted_links st') ≡ₚ elements (posted_links st') ->
  strip (json_dumps document) <> [] ->
  json_loads (strip (json_dumps document)) = Parsed document ->
  load_posted_links json_loads (file st') = Loaded (posted_links st').
Proof.
  cbv zeta. intros Hload Hw Horder Hne Hdoc.
  destruct (process_and_send_news_file json_dumps set_order news st Hw) as [Hsame|Hs].
  - rewrite Hsame. exact Hload.
  - now apply (load_synced json_dumps set_order).
Qed.

Lemma restart_finds_the_set_witness :
  load_posted_links plain_loads
    (file (process_and_send_news plain_dumps elements listed_twice (mkState ∅ Absent [])))
  = Loaded (posted_links (process_and_send_news plain_dumps elements listed_twice
                            (mkState ∅ Absent []))).
Proof.
  apply (restart_finds_the_set plain_loads plain_dumps elements listed_twice
           (mkState ∅ Absent [])).
  - reflexivity.
  - repeat constructor.
  - reflexivity.
  - vm_compute. discriminate.
  - vm_compute. reflexivity.
Defined.

End StoreMore.

(* ================================================================== *)
(** ** The sanitizer and the word-wrap together: the title of the card *)
(* ================================================================== *)

Module TitleMore.

Import Sanitizer SanitizerFacts SanitizerMore Compositor CompositorFacts.

Definition nospace (s : str) : bool := forallb (fun c => negb (is_space c)) s.

Lemma split_from_app_sep c a b : is_space c = true -> forall acc,
  split_from acc (a ++ c :: b) = split_from acc a ++ split b.
Proof.
  intros Hc. induction a as [|d a IH]; intros acc.
  - simpl. rewrite Hc. destruct acc; reflexivity.
  - simpl. destruct (is_space d).
    + destruct acc; rewrite IH; reflexivity.
    + apply IH.
Qed.

Lemma split_app_sep c a b :
  is_space c = true -> split (a ++ c :: b) = split a ++ split b.
Proof. intros Hc. now apply split_from_app_sep. Qed.

Lemma split_nospace a : nospace a = true -> split a = match a with [] => [] | _ => [a] end.
Proof.
  intros Ha. unfold split. rewrite split_from_nonspace by exact Ha.
  simpl. now destruct a.
Qed.

Lemma replacements_nospace :
  Forall (fun rule => snd rule <> [] /\ nospace (snd rule) = true) replacements.
Proof.
  assert (H : forallb (fun rule => match snd rule with [] => false | _ => true end
                                   && nospace (snd rule)) replacements = true)
    by (vm_compute; reflexivity).
  rewrite forallb_forall in H. apply Forall_forall. intros rule Hin.
  apply list_elem_of_In, H in Hin. apply andb_true_iff in Hin as [Hne Hns].
  split; [|exact Hns]. now destruct (snd rule).
Qed.

Lemma mask_nospace w :
  nospace w = true -> nospace (mask replacements w) = true.
Proof.
  intros Hw. unfold mask, rule_for.
  destruct (List.find _ replacements) as [rule|] eqn:Hfind; [|exact Hw].
  apply find_some in Hfind as [Hin _].
  pose proof replacements_nospace as H. rewrite Forall_forall in H.
  now apply H, list_elem_of_In.
Qed.

Lemma mask_nonempty w : w <> [] -> mask replacements w <> [].
Proof.
  intros Hw. unfold mask, rule_for.
  destruct (List.find _ replacements) as [rule|] eqn:Hfind; [|exact Hw].
  apply find_some in Hfind as [Hin _].
  pose proof replacements_nospace as H. rewrite Forall_forall in H.
  now apply H, list_elem_of_In.
Qed.

Section Masked.

Variable uni_alnum : N -> bool.
Hypothesis space_no_alnum : forall c, is_space c = true -> uni_alnum c = false.

Abbreviation sanitize_text := (sanitize_text uni_alnum).

Lemma space_no_word c : is_space c = true -> is_word uni_alnum c = false.
Proof.
  intros Hc. unfold Sanitizer.is_word.
  destruct (c <? 128) eqn:Hlt.
  - apply N.ltb_lt in Hlt. unfold is_space in Hc.
    unfold is_ascii_upper, is_ascii_lower, is_ascii_digit.
    repeat rewrite ?orb_true_iff, ?andb_true_iff, ?N.leb_le, ?N.eqb_eq in Hc.
    apply not_true_iff_false. intros Hw.
    repeat rewrite ?orb_true_iff, ?andb_true_iff, ?N.leb_le, ?N.eqb_eq in Hw.
    lia.
  - rewrite (space_no_alnum c Hc), orb_false_r.
    apply N.ltb_ge in Hlt. unfold is_space in Hc. unfold is_fold_extra.
    repeat rewrite ?orb_true_iff, ?andb_true_iff, ?N.leb_le, ?N.eqb_eq in Hc.
    apply not_true_iff_false. intros Hw.
    repeat rewrite ?orb_true_iff, ?andb_true_iff, ?N.leb_le, ?N.eqb_eq in Hw.
    lia.
Qed.

Lemma mask_scan_nospace s : forall acc,
  nospace acc = true -> nospace s = true ->
  nospace (mask_scan uni_alnum replacements acc s) = true.
Proof.
  induction s as [|c s IH]; intros acc Hacc Hs; simpl.
  - apply mask_nospace. unfold nospace. now rewrite forallb_rev.
  - simpl in Hs. apply andb_true_iff in Hs as [Hc Hs].
    destruct (is_word uni_alnum c).
    + apply IH; [|exact Hs]. simpl. now rewrite Hc.
    + unfold nospace. rewrite forallb_app. simpl. rewrite Hc.
      apply andb_true_iff. split.
      * apply mask_nospace. unfold nospace. now rewrite forallb_rev.
      * now apply IH.
Qed.

Lemma mask_scan_nonempty s : forall acc,
  acc <> [] \/ s <> [] -> mask_scan uni_alnum replacements acc s <> [].
Proof.
  induction s as [|c s IH]; intros acc Hne; simpl.
  - apply mask_nonempty. destruct Hne as [Hne|Hne]; [|congruence].
    intros H. apply (f_equal (@rev N)) in H. rewrite rev_involutive in H. auto.
  - destruct (is_word uni_alnum c).
    + apply IH. left. discriminate.
    + intros H. apply app_eq_nil in H as [_ H]. discriminate.
Qed.

Lemma sanitize_text_scan s :
  sanitize_text s = mask_scan uni_alnum replacements [] s.
Proof.
  rewrite (sanitize_text_rules uni_alnum).
  apply (apply_rules_mask_scan uni_alnum replacements replacements_well_formed
           (replacements_stable uni_alnum) s [] eq_refl).
Qed.

Lemma sanitize_text_sep a c b :
  is_space c = true ->
  sanitize_text (a ++ c :: b) = sanitize_text a ++ c :: sanitize_text b.
Proof.
  intros Hc. apply space_no_word in Hc. rewrite !(sanitize_text_rules uni_alnum).
  rewrite (apply_rules_app uni_alnum replacements replacements_well_formed a (c :: b))
    by (unfold SanitizerFacts.nonword_head; simpl; now rewrite Hc).
  now rewrite (apply_rules_nonword uni_alnum replacements replacements_well_formed c b Hc).
Qed.

Lemma split_sanitize_nospace a :
  nospace a = true -> split (sanitize_text a) = map sanitize_text (split a).
Proof.
  intros Ha. rewrite (split_nospace a Ha).
  destruct a as [|c a]; [rewrite sanitize_text_scan; reflexivity|].
  rewrite split_nospace by (rewrite sanitize_text_scan; now apply mask_scan_nospace).
  change (map sanitize_text [c :: a]) with [sanitize_text (c :: a)].
  destruct (sanitize_text (c :: a)) eqn:H; [|reflexivity].
  rewrite sanitize_text_scan in H. apply mask_scan_nonempty in H; [destruct H|].
  right. discriminate.
Qed.

Lemma split_sanitize_app s : forall a,
  nospace a = true ->
  split (sanitize_text (a ++ s)) = map sanitize_text (split (a ++ s)).
Proof.
  induction s as [|c s IH]; intros a Ha.
  - rewrite app_nil_r. now apply split_sanitize_nospace.
  - destruct (is_space c) eqn:Hc.
    + rewrite (sanitize_text_sep a c s Hc), !(split_app_sep c) by exact Hc.
      rewrite map_app, (split_sanitize_nospace a Ha). f_equal.
      apply (IH [] eq_refl).
    + change (a ++ c :: s) with (a ++ [c] ++ s). rewrite app_assoc. apply IH.
      unfold nospace in *. rewrite forallb_app. simpl. now rewrite Hc, Ha.
Qed.

Lemma split_sanitize s : split (sanitize_text s) = map sanitize_text (split s).
Proof. apply (split_sanitize_app s [] eq_refl). Qed.

End Masked.

(** X17.  Masking works word by word.  Where no whitespace character
    counts as alphanumeric, the words of the sanitized title are the
    sanitized words of the title: masking adds no word, drops none and
    never joins or breaks words. *)
Theorem masking_keeps_the_words (uni_alnum : N -> bool) (title : str) :
  (forall c, is_space c = true -> uni_alnum c = false) ->
  split (Sanitizer.sanitize_text uni_alnum title)
  = map (Sanitizer.sanitize_text uni_alnum) (split title).
Proof. intros Hspace. now apply split_sanitize. Qed.

Lemma masking_keeps_the_words_witness :
  split (Sanitizer.sanitize_text (fun _ => false) (u "Two killed, one  stabbed in Gaza"))
  = map (Sanitizer.sanitize_text (fun _ => false))
      (split (u "Two killed, one  stabbed in Gaza")).
Proof.
  apply (masking_keeps_the_words (fun _ => false) (u "Two killed, one  stabbed in Gaza")).
  reflexivity.
Defined.

(** X18.  The card never loses its title to the masking: a title with at
    least one word gives at least one line, none of them empty and at
    most three, after it is sanitized and wrapped. *)
Theorem masked_title_draws_something (uni_alnum : N -> bool) (text_width : str -> Z)
    (max_text_width : Z) (title : str) :
  (forall c, is_space c = true -> uni_alnum c = false) ->
  split title <> [] ->
  title_lines uni_alnum text_width max_text_width title <> []
  /\ Forall (fun line => line <> []) (title_lines uni_alnum text_width max_text_width title)
  /\ (length (title_lines uni_alnum text_width max_text_width title) <= max_lines)%nat.
Proof.
  intros Hspace Hne. unfold title_lines, Compositor.wrap_title.
  split; [|split].
  - apply CompositorMore.layout_words_some_line; [apply split_tokens|].
    rewrite (split_sanitize uni_alnum Hspace). now destruct (split title).
  - apply CompositorMore.layout_words_nonempty_lines, split_tokens.
  - apply layout_words_length.
Qed.

Lemma masked_title_draws_something_witness :
  title_lines (fun _ => false) ten_per_char 100 (u "Killed in Gaza") <> [].
Proof.
  destruct (masked_title_draws_something (fun _ => false) ten_per_char 100
              (u "Killed in Gaza")) as [H _].
  - reflexivity.
  - vm_compute. discriminate.
  - exact H.
Defined.

End TitleMore.

(* ================================================================== *)
(** ** What the scraper hands to the pipeline *)
(* ================================================================== *)

Module ScraperMore.

Import Store Scraper Compositor CompositorFacts.

(** A text that starts and ends with a character that is no whitespace. *)
Definition trimmed (s : str) : Prop :=
  starts_nonspace s = true /\ starts_nonspace (rev s) = true.

Lemma lstrip_head s : lstrip s = [] \/ starts_nonspace (lstrip s) = true.
Proof.
  induction s as [|c s IH]; [now left|].
  simpl. destruct (is_space c) eqn:Hc; [exact IH|].
  right. simpl. now rewrite Hc.
Qed.

Lemma lstrip_suffix s : exists p, s = p ++ lstrip s.
Proof.
  induction s as [|c s [p IH]]; [now exists []|].
  simpl. destruct (is_space c).
  - exists (c :: p). simpl. now f_equal.
  - now exists [].
Qed.

Lemma starts_nonspace_app a b :
  starts_nonspace a = true -> starts_nonspace (a ++ b) = true.
Proof. destruct a; [discriminate | auto]. Qed.

Lemma strip_trimmed s : strip s = [] \/ trimmed (strip s).
Proof.
  unfold strip, trimmed. rewrite rev_involutive.
  destruct (lstrip_head (rev (lstrip s))) as [Hr|Hr]; [left; now rewrite Hr|].
  right. split; [|exact Hr].
  destruct (lstrip_suffix (rev (lstrip s))) as [p Hp].
  apply (f_equal (@rev N)) in Hp. rewrite rev_involutive, rev_app_distr in Hp.
  destruct (lstrip_head s) as [Ht|Ht].
  - rewrite Ht in Hr. discriminate.
  - rewrite Hp in Ht.
    destruct (rev (lstrip (rev (lstrip s)))) as [|c r] eqn:Hrev; [|exact Ht].
    apply (f_equal (@rev N)) in Hrev. rewrite rev_involutive in Hrev.
    rewrite Hrev in Hr. discriminate.
Qed.

Lemma concat_trimmed pieces :
  Forall trimmed pieces -> pieces <> [] -> trimmed (concat pieces).
Proof.
  induction 1 as [|p pieces [Hp Hq] Hrest IH]; [congruence|]. intros _.
  simpl. split; [now apply starts_nonspace_app|].
  rewrite rev_app_distr. destruct pieces as [|p' pieces'].
  - simpl. exact Hq.
  - apply starts_nonspace_app. now apply IH.
Qed.

Lemma get_text_strip_trimmed e : get_text_strip e = [] \/ trimmed (get_text_strip e).
Proof.
  unfold get_text_strip.
  set (pieces := List.filter _ _).
  destruct pieces as [|p pieces'] eqn:Hpieces; [now left|].
  right. rewrite <- Hpieces. apply concat_trimmed; [|subst pieces; congruence].
  apply Forall_forall. intros q Hq. apply list_elem_of_In in Hq.
  subst pieces. apply filter_In in Hq as [Hin Hne].
  apply in_map_iff in Hin as (s & <- & _).
  destruct (strip_trimmed s) as [Hs|Hs]; [|exact Hs].
  rewrite Hs in Hne. discriminate.
Qed.

Lemma split_from_pending s : forall cur, cur <> [] -> split_from cur s <> [].
Proof.
  induction s as [|c s IH]; intros cur Hcur; simpl.
  - destruct cur; [congruence | discriminate].
  - destruct (is_space c).
    + destruct cur; [congruence | discriminate].
    + apply IH. discriminate.
Qed.

Lemma trimmed_has_word s : trimmed s -> split s <> [].
Proof.
  intros [Hs _]. destruct s as [|c s]; [discriminate|].
  unfold split. simpl in *. apply negb_true_iff in Hs. rewrite Hs.
  apply split_from_pending. discriminate.
Qed.

Lemma site_head : exists rest, site = 104 :: rest.
Proof. eexists. vm_compute. reflexivity. Qed.

Lemma scrape_article_spec block art :
  scrape_article block = Some art ->
  trimmed (title art) /\ link art <> [] /\ starts_with (u "/") (link art) = false.
Proof.
  unfold scrape_article.
  destruct (find block (u "a") None) as [[name attrs classes children|text]|];
    try discriminate.
  destruct (Resolver.get attrs (u "href")) as [href|]; [|discriminate].
  destruct (find block (u "h3") (Some (u "Title"))) as [title_elem|]; [|discriminate].
  destruct (get_text_strip_trimmed title_elem) as [Ht|Ht]; [now rewrite Ht|].
  destruct (get_text_strip title_elem) as [|c t]; [discriminate|].
  cbv zeta. destruct (starts_with (u "/") href) eqn:Hrel.
  - destruct site_head as [rest Hsite]. rewrite Hsite. cbn [app].
    intros H. injection H as <-. cbn [title link].
    split; [exact Ht|]. split; [discriminate | reflexivity].
  - destruct href as [|d href]; [discriminate|].
    intros H. injection H as <-. cbn [title link].
    split; [exact Ht|]. split; [discriminate | exact Hrel].
Qed.

Lemma get_latest_news_spec page art :
  In art (get_latest_news page) ->
  trimmed (title art) /\ link art <> [] /\ starts_with (u "/") (link art) = false.
Proof.
  destruct page as [soup|]; [|intros []].
  simpl. intros Hin. apply list_elem_of_In, list_elem_of_omap in Hin as (block & _ & Hart).
  now apply (scrape_article_spec block).
Qed.

(** One block whose link is relative to the site and whose heading has
    markup and whitespace around its words, and one block without a
    heading. *)
Definition listing : element :=
  Tag (u "html") [] []
    [ Tag (u "div") [] [u "LatestNews"; u "col"]
        [ Tag (u "a") [(u "href", u "/national/1")] []
            [ Tag (u "h3") [] [u "Title"]
                [ NavigableString (u "  Flood ");
                  Tag (u "b") [] [] [NavigableString (u "hits Dhaka ")] ] ] ];
      Tag (u "div") [] [u "LatestNews"]
        [ Tag (u "a") [(u "href", u "/national/2")] [] [NavigableString (u "more")] ] ].

(** X19.  Every article the scraper returns can be used as it is: its
    title has at least one word and no whitespace around it, and its link
    is not empty and not relative to the site root, whatever the page
    holds. *)
Theorem scraped_articles_are_usable (page : option element) (art : article) :
  In art (get_latest_news page) ->
  split (title art) <> []
  /\ strip (title art) = title art
  /\ link art <> []
  /\ starts_with (u "/") (link art) = false.
Proof.
  intros Hin. destruct (get_latest_news_spec page art Hin) as (Ht & Hl & Hrel).
  split; [now apply trimmed_has_word|]. split; [|now split].
  destruct Ht as [H1 H2]. now apply strip_keep.
Qed.

Lemma scraped_articles_are_usable_witness :
  In (mkArticle (u "Floodhits Dhaka") (u "https://www.bangladeshguardian.com/national/1"))
    (get_latest_news (Some listing))
  /\ split (u "Floodhits Dhaka") <> []
  /\ strip (u "Floodhits Dhaka") = u "Floodhits Dhaka".
Proof.
  assert (Hin : In (mkArticle (u "Floodhits Dhaka")
                      (u "https://www.bangladeshguardian.com/national/1"))
                  (get_latest_news (Some listing))) by (vm_compute; now left).
  destruct (scraped_articles_are_usable (Some listing) _ Hin) as (Hw & Hs & _).
  split; [exact Hin|]. split; [exact Hw | exact Hs].
Defined.

(** X20.  From the page to the card: where no whitespace character
    counts as alphanumeric, the title of every scraped article gives at
    least one line on the card, whatever the font metric and the width
    of the text column. *)
Theorem scraped_title_draws_something (uni_alnum : N -> bool) (text_width : str -> Z)
    (max_text_width : Z) (page : option element) (art : article) :
  (forall c, is_space c = true -> uni_alnum c = false) ->
  In art (get_latest_news page) ->
  title_lines uni_alnum text_width max_text_width (title art) <> [].
Proof.
  intros Hspace Hin. destruct (get_latest_news_spec page art Hin) as (Ht & _).
  unfold title_lines, Compositor.wrap_title.
  apply CompositorMore.layout_words_some_line; [apply split_tokens|].
  rewrite (TitleMore.split_sanitize uni_alnum Hspace).
  apply trimmed_has_word in Ht. now destruct (split (title art)).
Qed.

Lemma scraped_title_draws_something_witness :
  title_lines (fun _ => false) ten_per_char 60
    (title (mkArticle (u "Floodhits Dhaka")
              (u "https://www.bangladeshguardian.com/national/1"))) <> [].
Proof.
  apply (scraped_title_draws_something (fun _ => false) ten_per_char 60 (Some listing)).
  - reflexivity.
  - vm_compute. now left.
Defined.

End ScraperMore.
